(** * License-plate dashboard backend: text normaliser, de-duplication
      cache and camera manager

    A shallow embedding of three modules of the backend
    ([ocr_processor.py], [database.py], [camera_manager.py]) together
    with the properties their specification states about them.

    Conventions of the embedding.
    - A Python [str] is a [string]; the model is exact on ASCII text, which
      is what the OCR engines are asked to produce (their allow-list is
      [0-9A-Z-]).  Characters above 127 are carried along as opaque
      symbols: never upper-cased, never white space.  Every one of them is
      removed by the first regular-expression filter of [clean_text].
    - A [datetime] is an integer number of microseconds on a linear time
      line; a [timedelta] is a difference of two such numbers.
    - Module-level mutable state ([plate_cache], the [plates] table, the
      fields of [CameraManager]) is passed explicitly. *)

From Stdlib Require Import ZArith NArith Lia Ascii String List Bool.
From stdpp Require Import base tactics option list strings gmap.

Local Open Scope string_scope.

(** ** Python string primitives used by the backend *)

Module pystr.

Definition ord (c : ascii) : N := N_of_ascii c.

Definition in_range (lo hi : N) (c : ascii) : bool :=
  ((lo <=? ord c) && (ord c <=? hi))%N.

Definition is_AZ : ascii → bool := in_range 65 90.
Definition is_az : ascii → bool := in_range 97 122.
Definition is_09 : ascii → bool := in_range 48 57.
Definition is_hyphen (c : ascii) : bool := (ord c =? 45)%N.
Definition is_newline (c : ascii) : bool := (ord c =? 10)%N.

(** White space as [str.strip] and the regular expression class [\s] see
    it on ASCII: TAB, LF, VT, FF, CR, the four separators FS..US, space. *)
Definition is_space (c : ascii) : bool :=
  in_range 9 13 c || in_range 28 32 c.

(** [str.upper], character by character. *)
Definition upper_char (c : ascii) : ascii :=
  if is_az c then ascii_of_N (ord c - 32) else c.

Fixpoint upper (s : string) : string :=
  match s with
  | EmptyString => EmptyString
  | String c r => String (upper_char c) (upper r)
  end.

Fixpoint lstrip (s : string) : string :=
  match s with
  | EmptyString => EmptyString
  | String c r => if is_space c then lstrip r else s
  end.

Fixpoint rstrip (s : string) : string :=
  match s with
  | EmptyString => EmptyString
  | String c r =>
      match rstrip r with
      | EmptyString => if is_space c then EmptyString else String c EmptyString
      | r' => String c r'
      end
  end.

(** [s.strip()] *)
Definition strip (s : string) : string := rstrip (lstrip s).

(** Truthiness of a string: [not s] holds for the empty string only. *)
Definition is_empty (s : string) : bool :=
  match s with EmptyString => true | _ => false end.

(** Keep the characters satisfying [p]: what [re.sub] with a one-character
    class and an empty replacement leaves. *)
Fixpoint keep (p : ascii → bool) (s : string) : string :=
  match s with
  | EmptyString => EmptyString
  | String c r => if p c then String c (keep p r) else keep p r
  end.

(** Every character of [s] satisfies [p]. *)
Fixpoint all (p : ascii → bool) (s : string) : bool :=
  match s with
  | EmptyString => true
  | String c r => p c && all p r
  end.

(** Slices [s[:n]] and [s[n:]]. *)
Fixpoint take (n : nat) (s : string) : string :=
  match n, s with
  | S n', String c r => String c (take n' r)
  | _, _ => EmptyString
  end.

Fixpoint drop (n : nat) (s : string) : string :=
  match n, s with
  | S n', String _ r => drop n' r
  | _, _ => s
  end.

(** [old in s] *)
Fixpoint contains (old s : string) : bool :=
  match s with
  | EmptyString => is_empty old
  | String _ r => String.prefix old s || contains old r
  end.

(** [s.replace(old, new)]: every non-overlapping occurrence, leftmost
    first.  [skip] counts the characters of an occurrence that has just
    been replaced and are still to be passed over. *)
Fixpoint replace_from (old new : string) (skip : nat) (s : string) : string :=
  match s with
  | EmptyString => EmptyString
  | String c r =>
      match skip with
      | S k => replace_from old new k r
      | O =>
          if String.prefix old s
          then new +:+ replace_from old new (String.length old - 1) r
          else String c (replace_from old new 0 r)
      end
  end.

Fixpoint intersperse (new s : string) : string :=
  match s with
  | EmptyString => new
  | String c r => new +:+ String c (intersperse new r)
  end.

Definition replace (old new s : string) : string :=
  if is_empty old then intersperse new s else replace_from old new 0 s.

End pystr.

(** ** [ocr_processor.py]: validation, normalisation and formatting *)

Module ocr_processor.
Import pystr.

(** The two character classes the plate grammars are built from. *)
Inductive cls := Letter | Digit.

Definition in_cls (k : cls) (c : ascii) : bool :=
  match k with Letter => is_AZ c | Digit => is_09 c end.

(** [re.match] of an anchored pattern [^k1 k2 ... kn$].  The final [$]
    also matches just before one trailing newline. *)
Fixpoint re_match (p : list cls) (s : string) : bool :=
  match p, s with
  | [], EmptyString => true
  | [], String c EmptyString => is_newline c
  | [], _ => false
  | k :: p', String c r => in_cls k c && re_match p' r
  | _ :: _, EmptyString => false
  end.

Definition LLLDDD := [Letter; Letter; Letter; Digit; Digit; Digit].
Definition LDLDDD := [Letter; Digit; Letter; Digit; Digit; Digit].
Definition LLDDDD := [Letter; Letter; Digit; Digit; Digit; Digit].
Definition LLLLDD := [Letter; Letter; Letter; Letter; Digit; Digit].
Definition LDDLDD := [Letter; Digit; Digit; Letter; Digit; Digit].
Definition DDDLLL := [Digit; Digit; Digit; Letter; Letter; Letter].

Definition patterns : list (list cls) :=
  [LLLDDD; LDLDDD; LLDDDD; LLLLDD; LDDLDD; DDDLLL].

(** [re.sub(r'[-\s]', '', text)] *)
Definition remove_separators (text : string) : string :=
  keep (λ c, negb (is_hyphen c || is_space c)) text.

Definition is_valid_peruvian_plate (text : string) : bool :=
  if is_empty text || (String.length text <? 5)%nat then false
  else
    let clean := remove_separators text in
    if ((String.length clean <? 5) || (8 <? String.length clean))%nat then false
    else existsb (λ pattern, re_match pattern clean) patterns.

Definition format_plate (text : string) : string :=
  let clean := remove_separators text in
  if (String.length clean =? 6)%nat then
    if re_match LLLDDD clean then take 3 clean +:+ "-" +:+ drop 3 clean
    else if re_match LDLDDD clean then take 3 clean +:+ "-" +:+ drop 3 clean
    else clean
  else clean.

(** [re.sub(r'[^A-Z0-9-]', '', text)] *)
Definition allowed (c : ascii) : bool := is_AZ c || is_09 c || is_hyphen c.

(** [re.sub(r'-+', '-', cleaned)] *)
Fixpoint collapse_hyphens (s : string) : string :=
  match s with
  | EmptyString => EmptyString
  | String c r =>
      if is_hyphen c then
        match r with
        | String c' _ =>
            if is_hyphen c' then collapse_hyphens r
            else String c (collapse_hyphens r)
        | EmptyString => String c EmptyString
        end
      else String c (collapse_hyphens r)
  end.

(** The multi-character substitution table, in the insertion order of the
    dictionary literal. *)
Definition corrections : list (string * string) :=
  [("O0", "00"); ("0O", "00"); ("II", "11"); ("OO", "00");
   ("B8", "B8"); ("8B", "8B"); ("S5", "S5"); ("5S", "5S")].

(** The confusable-character table. *)
Definition char_corrections : list (ascii * ascii) :=
  [("O", "0"); ("0", "O"); ("I", "1"); ("1", "I"); ("S", "5"); ("5", "S");
   ("B", "8"); ("8", "B"); ("Z", "2"); ("2", "Z"); ("G", "6"); ("6", "G")]%char.

Fixpoint dict_get {V} (d : list (ascii * V)) (c : ascii) : option V :=
  match d with
  | [] => None
  | (k, v) :: d' => if Ascii.eqb k c then Some v else dict_get d' c
  end.

(** First loop: try each substitution whose left side occurs. *)
Fixpoint try_corrections (cleaned : string) (table : list (string * string))
  : option string :=
  match table with
  | [] => None
  | (wrong, right_) :: rest =>
      if contains wrong cleaned then
        let test_corrected := replace wrong right_ cleaned in
        if is_valid_peruvian_plate test_corrected
        then Some (format_plate test_corrected)
        else try_corrections cleaned rest
      else try_corrections cleaned rest
  end.

(** One iteration of the [enumerate] loop: the variant at index [i], when
    the character there has a swap partner. *)
Definition variation_at (cleaned : string) (i : nat) : option string :=
  c ← String.get i cleaned;
  c' ← dict_get char_corrections c;
  Some (take i cleaned +:+ String c' (drop (S i) cleaned)).

Definition variations (cleaned : string) : list string :=
  cleaned :: omap (variation_at cleaned) (seq 0 (String.length cleaned)).

(** The cleaning stage: upper-case, trim, filter, collapse. *)
Definition cleaned_of (text : string) : string :=
  collapse_hyphens (keep allowed (strip (upper text))).

Definition clean_text (text : string) : string :=
  if is_empty text then ""
  else
    let cleaned := cleaned_of text in
    if ((String.length cleaned <? 5) || (9 <? String.length cleaned))%nat then ""
    else if is_valid_peruvian_plate cleaned then format_plate cleaned
    else
      match try_corrections cleaned corrections with
      | Some plate => plate
      | None =>
          match List.find is_valid_peruvian_plate (variations cleaned) with
          | Some variation => format_plate variation
          | None =>
              if ((5 <=? String.length cleaned) && (String.length cleaned <=? 8))%nat
              then cleaned
              else ""
          end
      end.

End ocr_processor.

(** ** The vocabulary of the normaliser's specification *)

Module normalizer_spec.
Import pystr ocr_processor.

(** A text has exactly the shape [p]: one character per class. *)
Fixpoint has_shape (p : list cls) (s : string) : bool :=
  match p, s with
  | [], EmptyString => true
  | k :: p', String c r => in_cls k c && has_shape p' r
  | _, _ => false
  end.

(** With the separators removed, the text has one of the six shapes of
    the glossary. *)
Definition matches_grammar (s : string) : bool :=
  existsb (λ p, has_shape p (keep (λ c, negb (is_hyphen c)) s)) patterns.

(** The cleaning step as the specification words it: upper-case, strip
    what is outside [A-Z0-9-], collapse runs of the separator. *)
Definition spec_cleaned (text : string) : string :=
  collapse_hyphens (keep allowed (upper text)).

(** A text the cleaning step lets through as it is: only [A-Z0-9-], no
    two separators in a row, between 5 and 9 characters. *)
Definition well_formed_cleaned (s : string) : bool :=
  all allowed s && negb (contains "--" s)
  && (5 <=? String.length s)%nat && (String.length s <=? 9)%nat.

End normalizer_spec.

(** ** [database.py]: the two-tier de-duplication of plate readings *)

Module database.
Import pystr.
Local Open Scope Z_scope.

(** Microseconds per second: the resolution of [datetime]. *)
Definition MICRO : Z := 1000000.

(** [timedelta.seconds]: the seconds field of the normalised triple
    (days, seconds, microseconds), so always within [0, 86400). *)
Definition td_seconds (delta : Z) : Z := (delta `div` MICRO) `mod` 86400.

(** [timedelta.total_seconds() < n] for an integer [n].  The quotient is a
    float in Python; for the windows the application accepts (integers
    from 5 to 300) it never rounds across [n], so the test is the exact
    comparison of microseconds. *)
Definition total_seconds_lt (delta n : Z) : bool := delta <? n * MICRO.

(** [strftime("%Y-%m-%d %H:%M:%S")]: the instant cut down to its whole
    second.  The text has a fixed width, so the comparison SQLite makes on
    it is the comparison of these second counts. *)
Definition strftime (t : Z) : Z := t `div` MICRO.

(** A row of the [plates] table (without the auto-increment id). *)
Record Row := {
  plate_text : string;
  timestamp : Z;
  camera_source : string;
  image_path : option string;
  image_base64 : option string
}.

(** The module-level dictionary and the table behind [DATABASE_PATH]. *)
Record State := {
  plate_cache : gmap string Z;
  plates : list Row
}.

Definition expired (current_time : Z) (entry : string * Z) : option string :=
  if 60 <? td_seconds (current_time - entry.2) then Some entry.1 else None.

(** First the keys are collected, then they are deleted one by one. *)
Definition cleanup_cache (current_time : Z) (cache : gmap string Z)
  : gmap string Z :=
  let expired_keys := omap (expired current_time) (map_to_list cache) in
  foldl (λ m key, delete key m) cache expired_keys.

Definition clear_dedup_cache (st : State) : State :=
  {| plate_cache := ∅; plates := plates st |}.

(** [f"{plate_text}_{camera_source}"] *)
Definition cache_key (plate camera : string) : string :=
  plate +:+ "_" +:+ camera.

(** The [WHERE] clause of the duplicate query. *)
Definition is_recent (plate camera : string) (limit_timestamp : Z) (r : Row)
  : bool :=
  String.eqb (plate_text r) plate && String.eqb (camera_source r) camera
  && (limit_timestamp <? timestamp r).

(** [SELECT COUNT( * ) FROM plates WHERE ...] *)
Definition recent_count (rows : list Row) (plate camera : string)
    (limit_timestamp : Z) : nat :=
  length (List.filter (is_recent plate camera limit_timestamp) rows).

(** [add_plate_reading].  [clock_sweep] and [clock] are what the two calls
    of [datetime.now()] return: the one inside [cleanup_cache] and the one
    that follows it.  [db_up] tells whether SQLite answers; when it does
    not, the [except] branch returns [False]. *)
Definition add_plate_reading (clock_sweep clock : Z) (db_up : bool)
    (plate_text camera_source : string)
    (image_path image_base64 : option string)
    (dedup_seconds : Z) (st : State) : bool * State :=
  if is_empty plate_text || is_empty (strip plate_text) then (false, st)
  else
    let cache := cleanup_cache clock_sweep (plate_cache st) in
    let current_time := clock in
    let key := cache_key plate_text camera_source in
    let in_window :=
      match cache !! key with
      | Some seen => total_seconds_lt (current_time - seen) dedup_seconds
      | None => false
      end in
    if in_window then (false, {| plate_cache := cache; plates := plates st |})
    else if negb db_up
    then (false, {| plate_cache := cache; plates := plates st |})
    else
      let timestamp := strftime current_time in
      let limit_timestamp := strftime (current_time - dedup_seconds * MICRO) in
      if bool_decide (cache !! key = None)
         && (0 <? recent_count (plates st) plate_text camera_source
                    limit_timestamp)%nat
      then (false, {| plate_cache := <[key := current_time]> cache;
                      plates := plates st |})
      else
        (true,
         {| plate_cache := <[key := current_time]> cache;
            plates := plates st ++
              [{| plate_text := plate_text; timestamp := timestamp;
                  camera_source := camera_source; image_path := image_path;
                  image_base64 := image_base64 |}] |}).

(** The state of a freshly started process over an empty table. *)
Definition initial : State := {| plate_cache := ∅; plates := [] |}.

(** A table that holds one earlier reading of ABC123 on the webcam,
    stamped at second 100, under an empty Tier 1 (a restarted process). *)
Definition restarted : State :=
  {| plate_cache := ∅;
     plates := [{| plate_text := "ABC123"; timestamp := 100;
                   camera_source := "webcam"; image_path := None;
                   image_base64 := None |}] |}.

(** A Tier 1 that holds one entry, recorded at time 0. *)
Definition one_entry : gmap string Z := {["ABC123_webcam" := 0]}.

(** The state after one reading of ABC123 on the webcam, taken at time 0
    with the default window. *)
Definition seen_once : State :=
  (add_plate_reading 0 0 true "ABC123" "webcam" None None 30 initial).2.

End database.

(** ** [config.py] *)

Module config.

(** A connection endpoint: a device index or an address. *)
Inductive endpoint := Index (n : Z) | Url (address : string).

Definition CAMERA_SOURCES : gmap string endpoint :=
  <["webcam" := Index 0]>
    (<["ip_cam_cellphone" := Url "http://10.244.244.82:8080/video"]> ∅).

End config.

(** ** [camera_manager.py]: the single active video source *)

Module camera_manager.
Import config.
Local Open Scope Z_scope.

(** What the manager needs from OpenCV and the operating system.  The
    world holds the devices and the network; its behaviour is arbitrary. *)
Class Cv2 := {
  World : Type;
  Capture : Type;
  Frame : Type;
  VideoCapture : endpoint → World → Capture * World;
  isOpened : Capture → World → bool;
  (** [cap.read()]: [None] stands for [(False, None)] *)
  read : Capture → World → option Frame * World;
  release : Capture → World → World;
  sleep : Z → World → World;
  (** [frame.shape[:2]], height first *)
  shape : Frame → Z * Z;
  (** [int(height * (800 / width))], a floating-point computation *)
  scaled_height : Z → Z → Z;
  (** [cv2.resize(frame, (new_width, new_height), INTER_AREA)]: [None]
      when it raises [cv2.error], as it does for an empty frame or an
      empty target size *)
  resize : Frame → Z → Z → option Frame
}.

(** How a method ends: with the value it returns, or with the
    [cv2.error] of a call it does not guard. *)
Inductive result (A : Type) :=
  | Returns (a : A)
  | Raises.
Arguments Returns {A} a.
Arguments Raises {A}.

(** What a run leaves behind: every entry into [select_source] and every
    call made on the outside world, oldest first. *)
Inductive event :=
  | Call_select_source (source_name : option string)
  | Do_VideoCapture (source_path : endpoint)
  | Do_read
  | Do_release
  | Do_sleep (seconds : Z).

Section manager.
Context `{Cv2} (CAMERA_SOURCES : gmap string endpoint).

(** The fields of the object.  [caps] is created empty and never used
    again, so it is left out. *)
Record CameraManager := {
  active_source : option string;
  current_cap : option Capture
}.

Record Machine := {
  self : CameraManager;
  world : World;
  trace : list event
}.

(** Methods are state transformers over the machine. *)
Definition M (A : Type) : Type := Machine → A * Machine.

Definition ret {A} (a : A) : M A := λ m, (a, m).

Definition bind {A B} (c : M A) (k : A → M B) : M B :=
  λ m, let (a, m') := c m in k a m'.

Notation "x <~ c ;; k" := (bind c (λ x, k))
  (at level 20, c at level 99, k at level 200, only parsing).
Notation "c ;;; k" := (bind c (λ _, k))
  (at level 100, k at level 200, only parsing, right associativity).

Definition get_self : M CameraManager := λ m, (self m, m).

Definition put_self (s : CameraManager) : M unit :=
  λ m, (tt, {| self := s; world := world m; trace := trace m |}).

Definition log (e : event) : M unit :=
  λ m, (tt, {| self := self m; world := world m; trace := trace m ++ [e] |}).

Definition ask {A} (q : World → A) : M A := λ m, (q (world m), m).

Definition perform {A} (f : World → A * World) : M A :=
  λ m, let (a, w) := f (world m) in
       (a, {| self := self m; world := w; trace := trace m |}).

Definition closed : CameraManager :=
  {| active_source := None; current_cap := None |}.

Definition release_current_source : M unit :=
  s <~ get_self ;;
  match current_cap s with
  | Some cap =>
      log Do_release ;;;
      perform (λ w, (tt, release cap w)) ;;;
      put_self closed
  | None => ret tt
  end.

(** [isinstance(source_path, str) and source_path.startswith('http')] *)
Definition is_http (source_path : endpoint) : bool :=
  match source_path with
  | Url address => String.prefix "http" address
  | Index _ => false
  end.

(** [self.active_source == source_name and self.current_cap and
    self.current_cap.isOpened()] *)
Definition already_active (source_name : option string) : M bool :=
  s <~ get_self ;;
  if bool_decide (active_source s = source_name) then
    match current_cap s with
    | Some cap => ask (isOpened cap)
    | None => ret false
    end
  else ret false.

(** [select_source].  The argument is [None] when [get_frame] passes on
    an unset [active_source]; [None] is not a key of the dictionary. *)
Definition select_source (source_name : option string) : M bool :=
  log (Call_select_source source_name) ;;;
  match source_name ≫= (CAMERA_SOURCES !!.) with
  | None => ret false
  | Some source_path =>
      active <~ already_active source_name ;;
      if active then ret true
      else
        release_current_source ;;;
        log (Do_VideoCapture source_path) ;;;
        cap <~ perform (VideoCapture source_path) ;;
        (if is_http source_path
         then log (Do_sleep 1) ;;; perform (λ w, (tt, sleep 1 w))
         else ret tt) ;;;
        opened <~ ask (isOpened cap) ;;
        if negb opened then put_self closed ;;; ret false
        else
          put_self {| active_source := source_name; current_cap := Some cap |} ;;;
          ret true
  end.

(** [get_frame].  Nothing guards [cv2.resize]: when it raises, so does
    the method, after the read. *)
Definition get_frame : M (result (bool * option Frame)) :=
  s <~ get_self ;;
  match current_cap s with
  | Some cap =>
      opened <~ ask (isOpened cap) ;;
      if opened then
        log Do_read ;;;
        got <~ perform (read cap) ;;
        match got with
        | None =>
            s' <~ get_self ;;
            select_source (active_source s') ;;;
            ret (Returns (false, None))
        | Some frame =>
            let (height, width) := shape frame in
            if 800 <? width
            then
              match resize frame 800 (scaled_height height width) with
              | Some small => ret (Returns (true, Some small))
              | None => ret Raises
              end
            else ret (Returns (true, Some frame))
        end
      else ret (Returns (false, None))
  | None => ret (Returns (false, None))
  end.

(** The names [select_source] was entered with, oldest first. *)
Definition select_calls (t : list event) : list (option string) :=
  omap (λ e, match e with Call_select_source n => Some n | _ => None end) t.

(** The state [__init__] leaves. *)
Definition init (w : World) : Machine :=
  {| self := closed; world := w; trace := [] |}.

End manager.

(** A simulated link for examples: the world is the number of frames the
    link still delivers before it drops; opening always succeeds.  A
    frame is its size; the scaled height is the exact quotient, and
    resizing fails on an empty frame or an empty target. *)
Definition lossy_link : Cv2 := {|
  World := nat;
  Capture := endpoint;
  Frame := Z * Z;
  VideoCapture := λ source_path w, (source_path, w);
  isOpened := λ _ _, true;
  read := λ _ w, match w with O => (None, O) | S n => (Some (480, 640), n) end;
  release := λ _ w, w;
  sleep := λ _ w, w;
  shape := λ frame, frame;
  scaled_height := λ height width, (height * 800) `div` width;
  resize := λ frame new_width new_height,
    if (0 <? frame.1) && (0 <? frame.2) && (0 <? new_width) && (0 <? new_height)
    then Some (new_height, new_width) else None
|}.

(** The configured webcam, selected on a link that has no frame left. *)
Definition webcam_open : Machine (H := lossy_link) :=
  (select_source (H := lossy_link) CAMERA_SOURCES (Some "webcam")
     (init (H := lossy_link) 0%nat)).2.

End camera_manager.

(** ** [database.py]: statistics, clearing, counting, deleting *)

Module database_admin.
Import pystr database.
Local Open Scope Z_scope.

(** [get_cache_stats]: sweep, then report.  The keys come in the order
    of the map, not in the insertion order Python keeps. *)
Definition get_cache_stats (now : Z) (st : State)
  : (nat * list string) * State :=
  let cache := cleanup_cache now (plate_cache st) in
  ((size cache, (map_to_list cache).*1),
   {| plate_cache := cache; plates := plates st |}).

(** [clear_all_plates]: [DELETE FROM plates]; the dictionary is not
    touched.  (The reset of the id counter has no counterpart here: rows
    carry no id.) *)
Definition clear_all_plates (db_up : bool) (st : State) : bool * State :=
  if db_up then (true, {| plate_cache := plate_cache st; plates := [] |})
  else (false, st).

(** [get_total_plates]: [SELECT COUNT( * ) FROM plates], 0 on error. *)
Definition get_total_plates (db_up : bool) (st : State) : nat :=
  if db_up then length (plates st) else 0%nat.

(** [WHERE plate_text = ? AND timestamp = ?] *)
Definition is_reading (plate : string) (stamp : Z) (r : Row) : bool :=
  String.eqb (plate_text r) plate && (timestamp r =? stamp).

(** The newest time stamp among the rows of a plate. *)
Definition newest (plate : string) (rows : list Row) : option Z :=
  foldr (λ r acc,
           if String.eqb (plate_text r) plate
           then Some (match acc with
                      | Some m => Z.max (timestamp r) m
                      | None => timestamp r
                      end)
           else acc)
        None rows.

(** The positions [ORDER BY timestamp DESC LIMIT 1] may return for a
    plate: its rows with the newest time stamp. *)
Definition candidates (plate : string) (rows : list Row) : list nat :=
  match newest plate rows with
  | Some m =>
      List.filter
        (λ i, match rows !! i with
              | Some r => is_reading plate m r
              | None => false
              end)
        (seq 0 (length rows))
  | None => []
  end.

(** [delete_plate].  [timestamp] is [None] for a missing or empty
    argument.  Among rows of the plate that share the newest time stamp
    SQLite is free to return any one; [tie] says which. *)
Definition delete_plate (db_up : bool) (tie : nat) (plate_text : string)
    (timestamp : option Z) (st : State) : bool * State :=
  if negb db_up then (false, st)
  else
    match timestamp with
    | Some stamp =>
        let kept :=
          List.filter (λ r, negb (is_reading plate_text stamp r)) (plates st) in
        let rows_affected := (length (plates st) - length kept)%nat in
        ((0 <? rows_affected)%nat,
         {| plate_cache := plate_cache st; plates := kept |})
    | None =>
        let ids := candidates plate_text (plates st) in
        match ids !! (tie `mod` length ids)%nat with
        | Some i =>
            (true, {| plate_cache := plate_cache st;
                      plates := delete i (plates st) |})
        | None => (false, st)
        end
    end.

(** No entry of Tier 1 and no row of the table lies after [now]. *)
Definition no_future (now : Z) (st : State) : Prop :=
  map_Forall (λ _ seen, seen ≤ now) (plate_cache st)
  ∧ Forall (λ r, timestamp r ≤ strftime now) (plates st).

End database_admin.

(** ** [camera_manager.py]: what the manager keeps true *)

Module camera_manager_more.
Import config camera_manager.
Local Open Scope Z_scope.

(** The two fields go together: a capture is held exactly when a source
    is named active. *)
Definition consistent `{Cv2} (m : Machine) : Prop :=
  current_cap (self m) = None ↔ active_source (self m) = None.

(** A simulated camera for examples that delivers full-HD frames for
    ever.  At 1080 by 1920 the scaled height is 450, in floating point as
    in the exact quotient used here. *)
Definition hd_camera : Cv2 := {|
  World := unit;
  Capture := endpoint;
  Frame := Z * Z;
  VideoCapture := λ source_path w, (source_path, w);
  isOpened := λ _ _, true;
  read := λ _ w, (Some (1080, 1920), w);
  release := λ _ w, w;
  sleep := λ _ w, w;
  shape := λ frame, frame;
  scaled_height := λ height width, (height * 800) `div` width;
  resize := λ frame new_width new_height,
    if (0 <? frame.1) && (0 <? frame.2) && (0 <? new_width) && (0 <? new_height)
    then Some (new_height, new_width) else None
|}.

(** The configured webcam, selected on that camera. *)
Definition hd_webcam_open : Machine (H := hd_camera) :=
  (select_source (H := hd_camera) CAMERA_SOURCES (Some "webcam")
     (init (H := hd_camera) tt)).2.

End camera_manager_more.

(** ** [app.py]: the setting of the de-duplication window *)

Module app.
Local Open Scope Z_scope.








End app.

(** ** [sunarp_scraper.py]: the check of the plate before the query *)

Module sunarp_scraper.
Import pystr.

(** One factor of a pattern: a character class repeated between [least]
    and [most] times. *)
Record atom := { cls : ascii → bool; least : nat; most : nat }.

(** Take exactly [n] characters of the class off the front. *)
Fixpoint eat (p : ascii → bool) (n : nat) (s : string) : option string :=
  match n with
  | O => Some s
  | S n' =>
      match s with
      | String c r => if p c then eat p n' r else None
      | EmptyString => None
      end
  end.

(** What can be left of [s] after the factor has matched at its front. *)
Definition atom_residuals (a : atom) (s : string) : list string :=
  omap (λ k, eat (cls a) k s) (seq (least a) (S (most a) - least a)).

(** What can be left of [s] after the factors have matched in a row. *)
Fixpoint residuals (r : list atom) (s : string) : list string :=
  match r with
  | [] => [s]
  | a :: r' => atom_residuals a s ≫= residuals r'
  end.

(** [$]: the end of the text, or the newline that ends it. *)
Definition at_end (rest : string) : bool :=
  match rest with
  | EmptyString => true
  | String c EmptyString => is_newline c
  | _ => false
  end.

(** [re.match] of [^ factors $]: some way of matching reaches the end. *)
Definition re_match (r : list atom) (s : string) : bool :=
  existsb at_end (residuals r s).

Definition alnum (c : ascii) : bool := is_AZ c || is_09 c.
Definition plate_char (c : ascii) : bool := is_AZ c || is_09 c || is_hyphen c.

Definition times (p : ascii → bool) (lo hi : nat) : atom :=
  {| cls := p; least := lo; most := hi |}.

(** [^[A-Z0-9]{3}[-]?[0-9]{3,4}$] and the three patterns after it *)
Definition patterns : list (list atom) :=
  [ [times alnum 3 3; times is_hyphen 0 1; times is_09 3 4];
    [times is_AZ 1 1; times is_09 1 1; times is_AZ 1 1; times is_hyphen 0 1;
     times is_09 3 4];
    [times is_AZ 2 2; times is_09 1 1; times is_hyphen 0 1; times is_09 3 4];
    [times is_AZ 3 3; times is_hyphen 0 1; times is_09 2 2; times is_AZ 1 1] ].

(** [^[A-Z0-9-]{6,8}$] *)
Definition general_pattern : list atom := [times plate_char 6 8].

Definition _validate_plate_format (plate : string) : bool :=
  existsb (λ pattern, re_match pattern plate) patterns
  || re_match general_pattern plate.

(** The answer of [consult_plate]: the refusal of the format, or what
    the query returns. *)
Inductive answer (R : Type) :=
  | Invalid_format (plate_number : string)
  | Consulted (result : R).
Arguments Invalid_format {R} _.
Arguments Consulted {R} _.

(** [consult_plate]; [_perform_requests_consultation] is the query. *)
Definition consult_plate {R} (_perform_requests_consultation : string → R)
    (plate_number : string) : answer R :=
  let plate_number := replace " " "" (upper (strip plate_number)) in
  if negb (_validate_plate_format plate_number)
  then Invalid_format plate_number
  else Consulted (_perform_requests_consultation plate_number).

End sunarp_scraper.

(** ** [ocr_processor.py]: the ladder of recognition attempts *)

Module ocr_engine.
Import pystr ocr_processor.

(** What a call on an engine or on OpenCV gives: a value, or an
    exception. *)
Inductive outcome (A : Type) := Returned (a : A) | Raised.
Arguments Returned {A} _.
Arguments Raised {A}.

Section recognize.
(** A confidence is a float.  Its three comparisons, with 0.6, 0.4 and
    0.3, are left to the one who instantiates the model. *)
Context {confidence : Type}
  (above_06 above_04 above_03 : confidence → bool).

(** One element of the list [readtext] returns, without its box. *)
Record Reading := { read_text : string; read_confidence : confidence }.

(** The fields of the object that [recognize_text] looks at:
    [self.reader] is not [None]; [self.tesseract_available]. *)
Record OCRProcessor := { reader : bool; tesseract_available : bool }.

(** What the outside gives for one plate image: whether the image is
    [None] or empty, the outcome of the preprocessing, and the outcomes
    of the four engine calls, in the order of the code. *)
Record Scene := {
  image_missing : bool;
  preprocess_for_ocr : outcome unit;
  readtext_processed : outcome (list Reading);
  image_to_string : outcome string;
  readtext_original : outcome (list Reading);
  readtext_relaxed : outcome (list Reading)
}.

(** [if cleaned and is_valid_peruvian_plate(cleaned)] *)
Definition valid_plate (cleaned : string) : bool :=
  negb (is_empty cleaned) && is_valid_peruvian_plate cleaned.

(** Method 1: the longest valid reading above 0.6, the first of them
    among equals. *)
Definition method1 (results : list Reading) (best_result : string) : string :=
  foldl (λ best r,
           if above_06 (read_confidence r) then
             let cleaned := clean_text (read_text r) in
             if valid_plate cleaned then
               if (String.length best <? String.length cleaned)%nat
               then cleaned else best
             else best
           else best)
        best_result results.

(** Method 3: the first reading above 0.4 that is at least six characters
    long once cleaned, or valid; the loop breaks there. *)
Fixpoint method3 (results : list Reading) (best_result : string) : string :=
  match results with
  | [] => best_result
  | r :: rest =>
      if above_04 (read_confidence r) then
        let cleaned := clean_text (read_text r) in
        if negb (is_empty cleaned) && (5 <=? String.length cleaned)%nat then
          if is_valid_peruvian_plate cleaned
             || (6 <=? String.length cleaned)%nat
          then cleaned
          else method3 rest best_result
        else method3 rest best_result
      else method3 rest best_result
  end.

(** Method 4: every reading above 0.3, upper-cased, spaces removed, all
    glued together and cleaned as one text. *)
Definition method4 (results : list Reading) (best_result : string) : string :=
  let all_text :=
    foldl (λ acc r,
             if above_03 (read_confidence r)
             then acc +:+ replace " " "" (upper (read_text r))
             else acc)
          "" results in
  if negb (is_empty all_text) then
    let cleaned := clean_text all_text in
    if negb (is_empty cleaned) && (5 <=? String.length cleaned)%nat
    then cleaned else best_result
  else best_result.

(** One rung of the ladder: run [attempt] on what the engine returned,
    keep the result so far when it raised. *)
Definition attempt {A} (engine : outcome A) (run : A → string → string)
    (best_result : string) : string :=
  match engine with
  | Returned a => run a best_result
  | Raised => best_result
  end.

Definition recognize_text (self : OCRProcessor) (scene : Scene) : string :=
  if image_missing scene then ""
  else
    match preprocess_for_ocr scene with
    | Raised => ""
    | Returned _ =>
        let best_result := "" in
        let best_result :=
          if reader self
          then attempt (readtext_processed scene) method1 best_result
          else best_result in
        let best_result :=
          if is_empty best_result && tesseract_available self
          then attempt (image_to_string scene)
                 (λ text best,
                    let cleaned := clean_text text in
                    if valid_plate cleaned then cleaned else best)
                 best_result
          else best_result in
        let best_result :=
          if is_empty best_result && reader self
          then attempt (readtext_original scene) method3 best_result
          else best_result in
        let best_result :=
          if is_empty best_result && reader self
          then attempt (readtext_relaxed scene) method4 best_result
          else best_result in
        best_result
    end.

(** [perform_ocr], on the global processor. *)
Definition perform_ocr (ocr_processor : OCRProcessor) (scene : Scene)
  : string :=
  if negb (reader ocr_processor) then ""
  else recognize_text ocr_processor scene.

End recognize.

(** A scene for examples: confidences are per cent; the first engine
    call reads two texts, the other calls are not reached. *)
Definition parking_scene : Scene (confidence := nat) := {|
  image_missing := false;
  preprocess_for_ocr := Returned tt;
  readtext_processed :=
    Returned [{| read_text := "PERU"; read_confidence := 95%nat |};
              {| read_text := "abc 123"; read_confidence := 80%nat |}];
  image_to_string := Raised;
  readtext_original := Raised;
  readtext_relaxed := Raised
|}.

End ocr_engine.

(** * Properties *)

Import pystr ocr_processor normalizer_spec database config camera_manager.

(** ** Strings *)

Section string_facts.
Implicit Types (s r : string) (p q : ascii → bool) (c : ascii).

Lemma app_cons c s r : String c s +:+ r = String c (s +:+ r).
Proof. reflexivity. Qed.

Lemma app_nil s : "" +:+ s = s.
Proof. reflexivity. Qed.

Lemma keep_app p s r : keep p (s +:+ r) = keep p s +:+ keep p r.
Proof.
  induction s as [|c s IH]; [done |].
  rewrite app_cons. simpl. destruct (p c); by rewrite ?app_cons, IH.
Qed.

Lemma all_keep p s : all p (keep p s) = true.
Proof.
  induction s as [|c s IH]; simpl; [done |].
  destruct (p c) eqn:E; simpl; [by rewrite E | done].
Qed.

Lemma keep_all p s : all p s = true → keep p s = s.
Proof.
  induction s as [|c s IH]; simpl; [done |].
  intros [-> Hs]%andb_prop. by rewrite IH.
Qed.

Lemma all_weaken p q s :
  (∀ c, p c = true → q c = true) → all p s = true → all q s = true.
Proof.
  intros Hpq. induction s as [|c s IH]; simpl; [done |].
  intros [Hc Hs]%andb_prop. by rewrite (Hpq _ Hc), IH.
Qed.

Lemma length_keep_le p s : (String.length (keep p s) ≤ String.length s)%nat.
Proof.
  induction s as [|c s IH]; simpl; [done |].
  destruct (p c); simpl; lia.
Qed.

Lemma take_drop n s : take n s +:+ drop n s = s.
Proof.
  revert s. induction n as [|n IH]; intros [|c s]; simpl; try done.
  by rewrite app_cons, IH.
Qed.

(** Trimming removes white space only, so a filter that drops white
    space does not see it. *)
Lemma keep_lstrip p s :
  (∀ c, is_space c = true → p c = false) → keep p (lstrip s) = keep p s.
Proof.
  intros Hp. induction s as [|c s IH]; simpl; [done |].
  destruct (is_space c) eqn:E; [by rewrite (Hp _ E) | done].
Qed.

Lemma keep_rstrip p s :
  (∀ c, is_space c = true → p c = false) → keep p (rstrip s) = keep p s.
Proof.
  intros Hp. induction s as [|c s IH]; simpl; [done |].
  destruct (rstrip s) as [|c' r'] eqn:E.
  - simpl in IH. rewrite <- IH.
    destruct (is_space c) eqn:Ec; simpl; [by rewrite (Hp _ Ec) | done].
  - simpl. rewrite <- IH. done.
Qed.

Lemma keep_strip p s :
  (∀ c, is_space c = true → p c = false) → keep p (strip s) = keep p s.
Proof. intros Hp. unfold strip. by rewrite keep_rstrip, keep_lstrip. Qed.

Lemma lstrip_no_space s :
  all (λ c, negb (is_space c)) s = true → lstrip s = s.
Proof. destruct s as [|c s]; simpl; [done |]. by intros [->%negb_true_iff _]%andb_prop. Qed.

Lemma rstrip_no_space s :
  all (λ c, negb (is_space c)) s = true → rstrip s = s.
Proof.
  induction s as [|c s IH]; simpl; [done |].
  intros [Hc%negb_true_iff Hs]%andb_prop. rewrite (IH Hs), Hc.
  by destruct s.
Qed.

End string_facts.

(** ** Character classes *)

Section class_facts.
Implicit Types (c : ascii).

(** Unfold the classes to comparisons on the character code and decide
    them case by case. *)
Ltac by_code :=
  intros;
  repeat match goal with H : _ = true |- _ => revert H end;
  repeat match goal with H : _ = false |- _ => revert H end;
  unfold allowed, is_AZ, is_az, is_09, is_hyphen, is_space, is_newline,
    in_range;
  repeat match goal with
         | |- context [(?a <=? ?b)%N] => destruct (N.leb_spec a b)
         | |- context [(?a =? ?b)%N] => destruct (N.eqb_spec a b)
         end;
  simpl; intros; try done; lia.

Lemma allowed_not_lower c : allowed c = true → is_az c = false.
Proof. by_code. Qed.

Lemma allowed_not_space c : allowed c = true → is_space c = false.
Proof. by_code. Qed.

Lemma space_not_allowed c : is_space c = true → allowed c = false.
Proof. by_code. Qed.

Lemma newline_is_space c : is_newline c = true → is_space c = true.
Proof. by_code. Qed.

Lemma is_hyphen_eq c : is_hyphen c = true → c = "-"%char.
Proof.
  unfold is_hyphen, ord. intros Hc%N.eqb_eq.
  rewrite <- (ascii_N_embedding c), Hc. reflexivity.
Qed.

Lemma upper_char_allowed c : allowed c = true → upper_char c = c.
Proof. intros Hc. unfold upper_char. by rewrite (allowed_not_lower _ Hc). Qed.

End class_facts.

(** ** The text normaliser *)

Section normalizer_facts.
Implicit Types (s text : string) (p : list cls) (c : ascii).

Abbreviation no_hyphen := (λ c, negb (is_hyphen c)).
Abbreviation no_space := (λ c, negb (is_space c)).
Abbreviation no_separator := (λ c, negb (is_hyphen c || is_space c)).

Lemma has_shape_length p s :
  has_shape p s = true → String.length s = length p.
Proof.
  revert s. induction p as [|k p IH]; intros [|c s]; simpl; try done.
  intros [_ Hs]%andb_prop. by rewrite (IH _ Hs).
Qed.

Lemma has_shape_re_match p s : has_shape p s = true → re_match p s = true.
Proof.
  revert s. induction p as [|k p IH]; intros [|c s]; simpl; try done.
  intros [-> Hs]%andb_prop. by apply IH.
Qed.

(** On a text without white space the anchored match is the exact shape:
    the newline that [$] tolerates cannot be there. *)
Lemma re_match_has_shape p s :
  all no_space s = true → re_match p s = true → has_shape p s = true.
Proof.
  revert s. induction p as [|k p IH]; intros [|c s]; simpl; try done.
  - intros [Hc%negb_true_iff _]%andb_prop. destruct s; [|done].
    intros Hn%newline_is_space. congruence.
  - intros [_ Hs]%andb_prop [-> Hm]%andb_prop. by apply IH.
Qed.

Lemma patterns_length p : p ∈ patterns → length p = 6%nat.
Proof.
  unfold patterns. rewrite !elem_of_cons, elem_of_nil.
  intros [->|[->|[->|[->|[->|[->|[]]]]]]]; reflexivity.
Qed.

Lemma remove_separators_no_space text :
  all no_space (remove_separators text) = true.
Proof.
  apply all_weaken with (p := no_separator); [|apply all_keep].
  intros c. by destruct (is_hyphen c), (is_space c).
Qed.

Lemma remove_separators_no_hyphen text :
  all no_hyphen (remove_separators text) = true.
Proof.
  apply all_weaken with (p := no_separator); [|apply all_keep].
  intros c. by destruct (is_hyphen c), (is_space c).
Qed.

Lemma keep_ext_all (a f g : ascii → bool) s :
  (∀ c, a c = true → f c = g c) → all a s = true → keep f s = keep g s.
Proof.
  intros Hfg. induction s as [|c s IH]; simpl; [done |].
  intros [Hc Hs]%andb_prop. by rewrite (Hfg _ Hc), (IH Hs).
Qed.

(** A cleaned text holds no white space, so removing separators from it
    removes hyphens only. *)
Lemma remove_separators_allowed s :
  all allowed s = true → remove_separators s = keep no_hyphen s.
Proof.
  apply keep_ext_all. intros c Hc.
  by rewrite (allowed_not_space _ Hc), orb_false_r.
Qed.

Lemma format_plate_cases text :
  let clean := remove_separators text in
  format_plate text = clean
  ∨ format_plate text = take 3 clean +:+ "-" +:+ drop 3 clean.
Proof. unfold format_plate. repeat case_match; auto. Qed.

(** Formatting only moves the separator: without it, the formatted plate
    is the plate without separators. *)
Lemma format_plate_no_hyphen text :
  keep no_hyphen (format_plate text) = remove_separators text.
Proof.
  pose proof (remove_separators_no_hyphen text) as Hnh.
  destruct (format_plate_cases text) as [-> | ->].
  - by apply keep_all.
  - rewrite !keep_app. change (keep no_hyphen "-") with "".
    rewrite app_nil, <- keep_app, take_drop. by apply keep_all.
Qed.

Lemma is_valid_shape text :
  is_valid_peruvian_plate text = true →
  existsb (λ p, has_shape p (remove_separators text)) patterns = true.
Proof.
  unfold is_valid_peruvian_plate. repeat case_match; try done.
  rewrite !existsb_exists. intros (p & Hp & Hm). exists p. split; [done |].
  apply re_match_has_shape; [apply remove_separators_no_space | done].
Qed.

Lemma format_plate_matches text :
  is_valid_peruvian_plate text = true →
  matches_grammar (format_plate text) = true.
Proof.
  intros Hv. unfold matches_grammar.
  rewrite format_plate_no_hyphen. by apply is_valid_shape.
Qed.

(** On cleaned text the validator and the grammar of the glossary agree. *)
Lemma grammar_is_valid s :
  all allowed s = true → matches_grammar s = true →
  is_valid_peruvian_plate s = true.
Proof.
  intros Ha. unfold matches_grammar, is_valid_peruvian_plate.
  rewrite (remove_separators_allowed _ Ha), existsb_exists.
  intros (p & Hp & Hm).
  pose proof (has_shape_length _ _ Hm) as Hlen.
  rewrite (patterns_length p) in Hlen by by apply list_elem_of_In.
  pose proof (length_keep_le no_hyphen s) as Hle.
  assert (is_empty s = false) as -> by (destruct s; [simpl in *; lia | done]).
  assert ((String.length s <? 5)%nat = false) as -> by (apply Nat.ltb_ge; lia).
  rewrite Hlen. cbn [Nat.ltb Nat.leb orb]. apply existsb_exists. exists p. split; [done |].
  by apply has_shape_re_match.
Qed.

Lemma all_collapse_hyphens (f : ascii → bool) s :
  all f s = true → all f (collapse_hyphens s) = true.
Proof.
  induction s as [|c s IH]; [done |].
  intros [Hc Hs]%andb_prop. specialize (IH Hs).
  change (collapse_hyphens (String c s)) with
    (if is_hyphen c then
       match s with
       | String c' _ =>
           if is_hyphen c' then collapse_hyphens s
           else String c (collapse_hyphens s)
       | EmptyString => String c EmptyString
       end
     else String c (collapse_hyphens s)).
  destruct (is_hyphen c); [destruct s as [|c' s']; [|destruct (is_hyphen c')]|];
    rewrite ?IH; cbn [all]; by rewrite ?Hc, ?IH.
Qed.

Lemma all_allowed_cleaned_of text : all allowed (cleaned_of text) = true.
Proof. apply all_collapse_hyphens, all_keep. Qed.

(** The code trims before it filters; since the filter drops white space
    anyway, that is the cleaning step of the specification. *)
Lemma cleaned_of_spec text : cleaned_of text = spec_cleaned text.
Proof.
  unfold cleaned_of, spec_cleaned. f_equal.
  apply keep_strip, space_not_allowed.
Qed.

Lemma try_corrections_valid cleaned table plate :
  try_corrections cleaned table = Some plate →
  ∃ x, is_valid_peruvian_plate x = true ∧ plate = format_plate x.
Proof.
  induction table as [|[wrong right_] table IH]; simpl; [done |].
  destruct (contains wrong cleaned); [|done].
  destruct (is_valid_peruvian_plate _) eqn:Hv; [|done].
  intros [= <-]. eauto.
Qed.

End normalizer_facts.

Section normalizer_claims.
Implicit Types (s text C : string) (c : ascii).

Lemma upper_allowed s : all allowed s = true → upper s = s.
Proof.
  induction s as [|c s IH]; simpl; [done |].
  intros [Hc Hs]%andb_prop. by rewrite (upper_char_allowed _ Hc), (IH Hs).
Qed.

Lemma strip_allowed s : all allowed s = true → strip s = s.
Proof.
  intros Ha.
  assert (all (λ c, negb (is_space c)) s = true) as Hns.
  { revert Ha. apply all_weaken. intros c Hc.
    by rewrite (allowed_not_space _ Hc). }
  unfold strip. by rewrite (lstrip_no_space _ Hns), (rstrip_no_space _ Hns).
Qed.

Lemma collapse_no_run s :
  contains "--" s = false → collapse_hyphens s = s.
Proof.
  induction s as [|c s IH]; [done |].
  cbn [contains]. intros [Hp Hs]%orb_false_elim. specialize (IH Hs).
  change (collapse_hyphens (String c s)) with
    (if is_hyphen c then
       match s with
       | String c' _ =>
           if is_hyphen c' then collapse_hyphens s
           else String c (collapse_hyphens s)
       | EmptyString => String c EmptyString
       end
     else String c (collapse_hyphens s)).
  destruct (is_hyphen c) eqn:Ec; [|by rewrite IH].
  destruct s as [|c' s']; [done |].
  destruct (is_hyphen c') eqn:Ec'; [|by rewrite IH].
  apply is_hyphen_eq in Ec, Ec'. subst c c'. simpl in Hp. by destruct s'.
Qed.

(** A well-formed cleaned text goes through the cleaning stage as it is. *)
Lemma cleaned_of_well_formed C :
  well_formed_cleaned C = true →
  cleaned_of C = C ∧ all allowed C = true
  ∧ (5 ≤ String.length C ≤ 9)%nat.
Proof.
  unfold well_formed_cleaned.
  intros [[[Ha Hr%negb_true_iff]%andb_prop Hlo%Nat.leb_le]%andb_prop
          Hhi%Nat.leb_le]%andb_prop.
  split_and!; try done. unfold cleaned_of.
  by rewrite (upper_allowed _ Ha), (strip_allowed _ Ha), (keep_all _ _ Ha),
    (collapse_no_run _ Hr).
Qed.

(** C4, as stated, does not hold: the six-letter text AAAAAA is returned
    by the fallback as it is, and it has none of the six shapes. *)
Lemma clean_text_fallback_outside_grammar :
  ¬ (clean_text "AAAAAA" = "" ∨ matches_grammar (clean_text "AAAAAA") = true).
Proof. vm_compute. intros [?|?]; discriminate. Qed.

(** C4, amended: for every raw text the normaliser returns the empty
    string, or a text that matches one of the six grammar patterns once its
    separators are removed, or (the fallback) the cleaned text itself, of
    length 5 to 8, which matches none of them. *)
Theorem clean_text_grammar_or_fallback text :
  clean_text text = ""
  ∨ matches_grammar (clean_text text) = true
  ∨ (clean_text text = spec_cleaned text
     ∧ (5 ≤ String.length (clean_text text) ≤ 8)%nat
     ∧ matches_grammar (clean_text text) = false).
Proof.
  unfold clean_text. rewrite <- cleaned_of_spec.
  destruct (is_empty text); [by left |].
  destruct (_ || _)%bool; [by left |].
  destruct (is_valid_peruvian_plate (cleaned_of text)) eqn:Hv.
  { right; left. by apply format_plate_matches. }
  destruct (try_corrections _ _) as [plate|] eqn:Ht.
  { apply try_corrections_valid in Ht as (x & Hx & ->).
    right; left. by apply format_plate_matches. }
  destruct (List.find _ _) as [variation|] eqn:Hf.
  { apply find_some in Hf as [_ Hx].
    right; left. by apply format_plate_matches. }
  destruct (_ && _)%bool eqn:Hlen; [|by left].
  apply andb_prop in Hlen as [Hlo%Nat.leb_le Hhi%Nat.leb_le].
  right; right. split_and!; try done.
  destruct (matches_grammar (cleaned_of text)) eqn:Hg; [|done].
  apply grammar_is_valid in Hg; [congruence | apply all_allowed_cleaned_of].
Qed.

(** C6: a raw text whose cleaned form (upper-cased, characters outside
    A-Z, 0-9 and the hyphen stripped, runs of hyphens collapsed) is shorter
    than 5 or longer than 9 is rejected with the empty string. *)
Theorem clean_text_length_rejection text :
  (String.length (spec_cleaned text) < 5
   ∨ 9 < String.length (spec_cleaned text))%nat →
  clean_text text = "".
Proof.
  intros Hlen. unfold clean_text. rewrite cleaned_of_spec.
  destruct (is_empty text); [done |].
  destruct (Nat.ltb_spec (String.length (spec_cleaned text)) 5);
    destruct (Nat.ltb_spec 9 (String.length (spec_cleaned text)));
    simpl; try done; lia.
Qed.

(** C6 at work on a short and on a long text. *)
Lemma clean_text_length_rejection_witness :
  ((String.length (spec_cleaned " ab-1 ") < 5)%nat
   ∧ clean_text " ab-1 " = "")
  ∧ ((9 < String.length (spec_cleaned "abc-1234--xyz"))%nat
     ∧ clean_text "abc-1234--xyz" = "").
Proof.
  split; split.
  - simpl. lia.
  - apply clean_text_length_rejection. left. simpl. lia.
  - simpl. lia.
  - apply clean_text_length_rejection. right. simpl. lia.
Defined.

(** C7: on a code that is already canonical, that is a well-formed cleaned
    text which matches a grammar pattern once its separators are removed,
    the normaliser does what the formatter does. *)
Theorem clean_text_canonical C :
  well_formed_cleaned C = true → matches_grammar C = true →
  clean_text C = format_plate C.
Proof.
  intros (Hc & Ha & Hlo & Hhi)%cleaned_of_well_formed Hg.
  unfold clean_text. rewrite Hc.
  assert (is_empty C = false) as -> by (destruct C; [simpl in *; lia | done]).
  assert ((String.length C <? 5)%nat = false) as -> by (apply Nat.ltb_ge; lia).
  assert ((9 <? String.length C)%nat = false) as -> by (apply Nat.ltb_ge; lia).
  by rewrite (grammar_is_valid _ Ha Hg).
Qed.

(** C7 at work on three canonical codes. *)
Lemma clean_text_canonical_witness :
  clean_text "ABC-123" = format_plate "ABC-123"
  ∧ clean_text "A1B234" = format_plate "A1B234"
  ∧ clean_text "-123ABC-" = format_plate "-123ABC-".
Proof.
  split_and!; apply clean_text_canonical; reflexivity.
Defined.

(** Without the length bound of the cleaning stage the equation fails:
    this text matches the first pattern and is made of allowed characters
    only, but it is eleven characters long. *)
Lemma clean_text_long_canonical :
  matches_grammar "A-B-C-1-2-3" = true
  ∧ clean_text "A-B-C-1-2-3" = ""
  ∧ format_plate "A-B-C-1-2-3" = "ABC-123".
Proof. by vm_compute. Qed.

(** C8, as stated, does not hold: the normaliser does not return ABC-123
    for the raw text ABC I23. *)
Lemma clean_text_worked_example_refuted : clean_text "ABC I23" ≠ "ABC-123".
Proof. by vm_compute. Qed.

(** C8, amended: for the raw text ABC I23 cleaning yields ABCI23 (length
    6), which already matches the pattern of four letters and two digits;
    it is therefore valid as it stands, no substitution is tried, the
    formatter leaves it unchanged, and the normaliser returns ABCI23. *)
Theorem clean_text_worked_example :
  cleaned_of "ABC I23" = "ABCI23"
  ∧ re_match LLLLDD "ABCI23" = true
  ∧ is_valid_peruvian_plate "ABCI23" = true
  ∧ format_plate "ABCI23" = "ABCI23"
  ∧ clean_text "ABC I23" = "ABCI23".
Proof. by vm_compute. Qed.

(** The single-character correction at work: AB12I4 is not valid, no
    table substitution applies, and the first variant that validates,
    scanning left to right, swaps the I for a 1. *)
Lemma clean_text_single_swap :
  is_valid_peruvian_plate "AB12I4" = false
  ∧ try_corrections "AB12I4" corrections = None
  ∧ variations "AB12I4" = ["AB12I4"; "A812I4"; "ABI2I4"; "AB1ZI4"; "AB1214"]
  ∧ List.find is_valid_peruvian_plate (variations "AB12I4") = Some "AB1214"
  ∧ clean_text "AB12I4" = "AB1214".
Proof. by vm_compute. Qed.

End normalizer_claims.

(** ** The de-duplication cache *)

Section dedup_facts.
Local Open Scope Z_scope.
Implicit Types (st : State) (cache : gmap string Z) (k code src : string)
  (rows : list Row) (W s t : Z).

Lemma lookup_foldl_delete (ks : list string) cache k :
  foldl (λ m key, delete key m) cache ks !! k
  = if decide (k ∈ ks) then None else cache !! k.
Proof.
  revert cache. induction ks as [|k' ks IH]; intros cache; cbn [foldl].
  - case_decide; [set_solver | done].
  - rewrite IH. destruct (decide (k = k')) as [->|Hne].
    + rewrite lookup_delete_eq.
      destruct (decide (k' ∈ ks)), (decide (k' ∈ k' :: ks)); try done;
        set_solver.
    + rewrite lookup_delete_ne by done.
      destruct (decide (k ∈ ks)), (decide (k ∈ k' :: ks)); try done;
        set_solver.
Qed.

(** What the sweep leaves: exactly the entries whose difference to the
    current time has a seconds field of at most 60. *)
Lemma lookup_cleanup_cache now cache k :
  cleanup_cache now cache !! k
  = match cache !! k with
    | Some seen => if 60 <? td_seconds (now - seen) then None else Some seen
    | None => None
    end.
Proof.
  unfold cleanup_cache. rewrite lookup_foldl_delete.
  case_decide as Hin.
  - apply list_elem_of_omap in Hin as ([k' seen] & Hin & Hex).
    apply elem_of_map_to_list in Hin. unfold expired in Hex. simpl in Hex.
    destruct (60 <? td_seconds (now - seen)) eqn:E; [|done].
    injection Hex as ->. by rewrite Hin, E.
  - destruct (cache !! k) as [seen|] eqn:Hk; [|done].
    destruct (60 <? td_seconds (now - seen)) eqn:E; [|done].
    destruct Hin. apply list_elem_of_omap. exists (k, seen). split.
    + by apply elem_of_map_to_list.
    + unfold expired. simpl. by rewrite E.
Qed.

Lemma td_seconds_small delta :
  0 ≤ delta < 61 * MICRO → (60 <? td_seconds delta) = false.
Proof.
  intros Hd. apply Z.ltb_ge. unfold td_seconds, MICRO in *.
  assert (0 ≤ delta `div` 1000000 ≤ 60) as Hq.
  { split; [apply Z.div_pos; lia | apply Z.lt_succ_r, Z.div_lt_upper_bound; lia]. }
  rewrite Z.mod_small; lia.
Qed.

Lemma strftime_shift t n : strftime (t - n * MICRO) = strftime t - n.
Proof.
  unfold strftime, MICRO.
  replace (t - n * 1000000) with (t + (- n) * 1000000) by lia.
  rewrite Z.div_add by lia. lia.
Qed.

Lemma strftime_mono t t' : t ≤ t' → strftime t ≤ strftime t'.
Proof. intros. unfold strftime, MICRO. apply Z.div_le_mono; lia. Qed.

Lemma recent_count_zero rows code src limit :
  (∀ r, r ∈ rows → plate_text r = code → camera_source r = src →
        timestamp r ≤ limit) →
  recent_count rows code src limit = 0%nat.
Proof.
  unfold recent_count. induction rows as [|r rows IH]; intros Hold; [done |].
  simpl. destruct (is_recent code src limit r) eqn:Hr.
  - unfold is_recent in Hr.
    apply andb_prop in Hr as [[Hp%String.eqb_eq Hc%String.eqb_eq]%andb_prop
                              Ht%Z.ltb_lt].
    specialize (Hold r ltac:(apply list_elem_of_here) Hp Hc). lia.
  - apply IH. intros r' Hr'. apply Hold. by apply list_elem_of_further.
Qed.

Lemma recent_count_pos rows code src limit r :
  r ∈ rows → plate_text r = code → camera_source r = src →
  limit < timestamp r →
  (0 < recent_count rows code src limit)%nat.
Proof.
  intros Hin Hp Hc Ht.
  assert (is_recent code src limit r = true) as Hr.
  { unfold is_recent. rewrite Hp, Hc, !String.eqb_refl. simpl.
    by apply Z.ltb_lt. }
  unfold recent_count. induction Hin as [r rows|r r' rows Hin IH]; simpl.
  - rewrite Hr. simpl. lia.
  - destruct (is_recent code src limit r'); simpl; [lia | by apply IH].
Qed.

(** What an accepting call has done. *)
Lemma add_plate_reading_accept s t up code src ip ib W st st' :
  add_plate_reading s t up code src ip ib W st = (true, st') →
  (is_empty code || is_empty (strip code) = false)%bool
  ∧ up = true
  ∧ plate_cache st'
    = <[cache_key code src := t]> (cleanup_cache s (plate_cache st))
  ∧ plates st'
    = (plates st ++ [{| plate_text := code; timestamp := strftime t;
                        camera_source := src; image_path := ip;
                        image_base64 := ib |}])%list.
Proof.
  unfold add_plate_reading.
  destruct (_ || _)%bool; [done |].
  repeat case_match; try done; intros [= <-]; simpl; split_and!; try done.
  all: by destruct up.
Qed.

End dedup_facts.

Section dedup_claims.
Local Open Scope Z_scope.
Implicit Types (st : State) (code src : string) (W s t : Z)
  (ip ib : option string).

Abbreviation blank code := (is_empty code || is_empty (strip code))%bool.

(** A call that finds the key in Tier 1, younger than the window, is
    rejected there; only the sweep has touched the state. *)
Lemma add_plate_reading_tier1 s t up code src ip ib W st seen :
  blank code = false →
  cleanup_cache s (plate_cache st) !! cache_key code src = Some seen →
  t - seen < W * MICRO →
  add_plate_reading s t up code src ip ib W st
  = (false, {| plate_cache := cleanup_cache s (plate_cache st);
               plates := plates st |}).
Proof.
  intros Hb Hk Hd. unfold add_plate_reading. rewrite Hb, Hk.
  unfold total_seconds_lt. by rewrite (proj2 (Z.ltb_lt _ _) Hd).
Qed.

(** A call that misses Tier 1 and finds a recent row in the table is
    rejected, and the key is entered with the time of this call. *)
Lemma add_plate_reading_tier2 s t code src ip ib W st row :
  blank code = false →
  cleanup_cache s (plate_cache st) !! cache_key code src = None →
  row ∈ plates st → plate_text row = code → camera_source row = src →
  strftime (t - W * MICRO) < timestamp row →
  add_plate_reading s t true code src ip ib W st
  = (false, {| plate_cache := <[cache_key code src := t]>
                                (cleanup_cache s (plate_cache st));
               plates := plates st |}).
Proof.
  intros Hb Hk Hin Hp Hc Ht. unfold add_plate_reading. rewrite Hb, Hk.
  cbn [negb]. rewrite bool_decide_eq_true_2 by done.
  pose proof (recent_count_pos _ _ _ _ _ Hin Hp Hc Ht) as Hpos.
  by rewrite (proj2 (Nat.ltb_lt _ _) Hpos).
Qed.

(** A call outside the window of every Tier 1 entry and of every row of
    the table is accepted. *)
Lemma add_plate_reading_fresh s t code src ip ib W st :
  blank code = false →
  (∀ seen, cleanup_cache s (plate_cache st) !! cache_key code src = Some seen →
           W * MICRO ≤ t - seen) →
  (∀ r, r ∈ plates st → plate_text r = code → camera_source r = src →
        timestamp r ≤ strftime t - W) →
  (add_plate_reading s t true code src ip ib W st).1 = true.
Proof.
  intros Hb Hcache Hrows. unfold add_plate_reading. rewrite Hb.
  cbv zeta. rewrite strftime_shift, (recent_count_zero _ _ _ _ Hrows).
  destruct (cleanup_cache s (plate_cache st) !! cache_key code src)
    as [seen|] eqn:Hk.
  - specialize (Hcache seen eq_refl). unfold total_seconds_lt.
    by rewrite (proj2 (Z.ltb_ge _ _) Hcache).
  - by rewrite andb_false_r.
Qed.

(** C1: the code does not keep the window it is given.  With a window
    of 100 seconds, a repeat 99.5 seconds after the accepted reading is
    accepted again, and so stored a second time: the sweep has dropped
    the entry from Tier 1, as it does after 61 seconds whatever the
    window is, and the table compares clock readings cut to whole
    seconds.  This is against the docstring of [add_plate_reading] (the
    same plate is not registered when it was detected in the last N
    seconds) and against the test of Tier 1, made on [total_seconds()].
    Besides, after a repeat 70 seconds in, rejected by Tier 2, the call
    made 100 seconds after the accepted reading is still rejected: the
    Tier 2 rejection re-entered the key with its own time. *)
Lemma dedup_window_refuted :
  let first := add_plate_reading 900000 900000 true "ABC-123" "webcam"
                 None None 100 initial in
  let start := add_plate_reading 0 0 true "ABC-123" "webcam"
                 None None 100 initial in
  let second := add_plate_reading 70000000 70000000 true "ABC-123" "webcam"
                  None None 100 start.2 in
  (first.1 = true
   ∧ (add_plate_reading 100400000 100400000 true "ABC-123" "webcam"
        None None 100 first.2).1 = true)
  ∧ (start.1 = true ∧ second.1 = false
     ∧ (add_plate_reading 100000000 100000000 true "ABC-123" "webcam"
          None None 100 second.2).1 = false).
Proof. by vm_compute. Qed.

(** What the code, as it is written, does keep of the window: if a call
    at time t accepts, a second call for the same code and source at t+d,
    0 <= d < window, returns false provided d is below 61 seconds (the
    entry is still in Tier 1) or the two calls are less than window apart
    in whole clock seconds; and when d is below 61 seconds, a following
    call made window seconds or more after the accepted one, with the
    store reachable and no row of that key stamped later than the
    accepted one, returns true.  The bound of 61 seconds is the one the
    sweep has through [td_seconds]. *)
Theorem dedup_window st0 code src W s1 t1 up1 ip1 ib1 st1
    s2 t2 up2 ip2 ib2 :
  add_plate_reading s1 t1 up1 code src ip1 ib1 W st0 = (true, st1) →
  t1 ≤ s2 ≤ t2 → t2 - t1 < W * MICRO →
  (t2 - t1 < 61 * MICRO ∨ strftime t2 - strftime t1 < W) →
  let second := add_plate_reading s2 t2 up2 code src ip2 ib2 W st1 in
  second.1 = false
  ∧ ∀ s3 t3 ip3 ib3,
      t2 - t1 < 61 * MICRO → W * MICRO ≤ t3 - t1 →
      (∀ r, r ∈ plates st0 → plate_text r = code → camera_source r = src →
            timestamp r ≤ strftime t1) →
      (add_plate_reading s3 t3 true code src ip3 ib3 W second.2).1 = true.
Proof.
  intros (Hb & -> & Hc1 & Hp1)%add_plate_reading_accept Hs2 Hd Hcase second.
  assert (cleanup_cache s2 (plate_cache st1) !! cache_key code src
          = if 60 <? td_seconds (s2 - t1) then None else Some t1) as Hk2.
  { by rewrite lookup_cleanup_cache, Hc1, lookup_insert_eq. }
  split.
  - subst second. destruct (60 <? td_seconds (s2 - t1)) eqn:Hswept.
    + destruct Hcase as [Hd61|Hsec].
      { rewrite td_seconds_small in Hswept by lia. done. }
      destruct up2.
      * set (row := {| plate_text := code; timestamp := strftime t1;
                       camera_source := src; image_path := ip1;
                       image_base64 := ib1 |}) in Hp1.
        assert (row ∈ plates st1) as Hin.
        { rewrite Hp1. apply elem_of_app. right. apply list_elem_of_here. }
        assert (strftime (t2 - W * MICRO) < timestamp row) as Ht.
        { rewrite strftime_shift. simpl. lia. }
        by rewrite (add_plate_reading_tier2 s2 t2 code src ip2 ib2 W st1 row
                      Hb Hk2 Hin eq_refl eq_refl Ht).
      * unfold add_plate_reading. rewrite Hb, Hk2. done.
    + by rewrite (add_plate_reading_tier1 s2 t2 up2 code src ip2 ib2 W st1 t1
                    Hb Hk2 Hd).
  - intros s3 t3 ip3 ib3 Hd61 Hd3 Hold.
    rewrite td_seconds_small in Hk2 by lia.
    subst second.
    rewrite (add_plate_reading_tier1 s2 t2 up2 code src ip2 ib2 W st1 t1
               Hb Hk2 Hd).
    cbn [fst snd].
    assert (strftime t1 ≤ strftime t3 - W) as Hsec.
    { rewrite <- strftime_shift. apply strftime_mono. lia. }
    apply add_plate_reading_fresh; [done | |]; simpl.
    + intros seen. rewrite lookup_cleanup_cache, Hk2.
      destruct (60 <? _); [done |]. intros [= <-]. lia.
    + intros r. rewrite Hp1, elem_of_app, elem_of_cons, elem_of_nil.
      intros [Hr|[->|[]]] Hp Hc; [|simpl; lia].
      specialize (Hold r Hr Hp Hc). lia.
Qed.

(** The example of the specification, where the window is kept: window
    30 s, repeat after 5 s, third reading after 31 s. *)
Lemma dedup_window_witness :
  (add_plate_reading 5000000 5000000 true "ABC123" "webcam" None None 30
     seen_once).1 = false
  ∧ (add_plate_reading 31000000 31000000 true "ABC123" "webcam" None None 30
       (add_plate_reading 5000000 5000000 true "ABC123" "webcam" None None 30
          seen_once).2).1 = true.
Proof.
  split.
  - refine (proj1 (dedup_window initial "ABC123" "webcam" 30 0 0 true
                     None None seen_once 5000000 5000000 true None None
                     _ _ _ _)).
    + vm_compute. reflexivity.
    + lia.
    + vm_compute. reflexivity.
    + left. vm_compute. reflexivity.
  - refine (proj2 (dedup_window initial "ABC123" "webcam" 30 0 0 true
                     None None seen_once 5000000 5000000 true None None
                     _ _ _ _) 31000000 31000000 None None _ _ _).
    + vm_compute. reflexivity.
    + lia.
    + vm_compute. reflexivity.
    + left. vm_compute. reflexivity.
    + vm_compute. reflexivity.
    + unfold MICRO. lia.
    + intros r Hr. by apply elem_of_nil in Hr.
Defined.

(** C2, as stated, does not hold: a reading is accepted at time 0, the
    cache is cleared, and the repeat 5 seconds later, inside the window of
    30 seconds, is rejected, the table still holding the first record. *)
Lemma clear_then_repeat_refuted :
  add_plate_reading 0 0 true "ABC123" "webcam" None None 30 initial
  = (true, seen_once)
  ∧ plate_cache (clear_dedup_cache seen_once) = ∅
  ∧ (add_plate_reading 5000000 5000000 true "ABC123" "webcam" None None 30
       (clear_dedup_cache seen_once)).1 = false.
Proof. by vm_compute. Qed.

(** C2, amended: after [clear_dedup_cache] has emptied Tier 1, the very
    next call for a code and source that were accepted before, made while
    the stored record is still newer than now minus the window (in whole
    seconds), returns false: Tier 2 finds the record; the table is left as
    it was and, when the store answers, the key is re-entered in Tier 1
    with the time of this call. *)
Theorem clear_then_repeat st0 code src W s1 t1 up1 ip1 ib1 st1
    s2 t2 up2 ip2 ib2 :
  add_plate_reading s1 t1 up1 code src ip1 ib1 W st0 = (true, st1) →
  strftime t2 - strftime t1 < W →
  let repeat := add_plate_reading s2 t2 up2 code src ip2 ib2 W
                  (clear_dedup_cache st1) in
  repeat.1 = false
  ∧ plates repeat.2 = plates st1
  ∧ (up2 = true → plate_cache repeat.2 !! cache_key code src = Some t2).
Proof.
  intros (Hb & -> & Hc1 & Hp1)%add_plate_reading_accept Hsec repeat.
  assert (cleanup_cache s2 (plate_cache (clear_dedup_cache st1))
            !! cache_key code src = None) as Hk.
  { by rewrite lookup_cleanup_cache. }
  destruct up2.
  - set (row := {| plate_text := code; timestamp := strftime t1;
                   camera_source := src; image_path := ip1;
                   image_base64 := ib1 |}) in Hp1.
    assert (row ∈ plates (clear_dedup_cache st1)) as Hin.
    { simpl. rewrite Hp1. apply elem_of_app. right. apply list_elem_of_here. }
    assert (strftime (t2 - W * MICRO) < timestamp row) as Ht.
    { rewrite strftime_shift. simpl. lia. }
    subst repeat.
    rewrite (add_plate_reading_tier2 s2 t2 code src ip2 ib2 W _ row
               Hb Hk Hin eq_refl eq_refl Ht).
    split_and!; [done.. |]. intros _. simpl. by rewrite lookup_insert_eq.
  - subst repeat. unfold add_plate_reading. rewrite Hb, Hk. done.
Qed.

(** C2, amended, on the run of the counterexample. *)
Lemma clear_then_repeat_witness :
  let repeat := add_plate_reading 5000000 5000000 true "ABC123" "webcam"
                  None None 30 (clear_dedup_cache seen_once) in
  repeat.1 = false
  ∧ plates repeat.2 = plates seen_once
  ∧ (true = true → plate_cache repeat.2 !! cache_key "ABC123" "webcam"
                   = Some 5000000).
Proof.
  refine (clear_then_repeat initial "ABC123" "webcam" 30 0 0 true None None
            seen_once 5000000 5000000 true None None _ _).
  - vm_compute. reflexivity.
  - vm_compute. reflexivity.
Defined.

(** C3, as stated, does not hold: with an empty Tier 1 and a record
    stamped at second 100, a call at second 110 is rejected, and the entry
    it makes in Tier 1 carries the time of the call, not that of the
    record. *)
Lemma tier2_backfill_refuted :
  let call := add_plate_reading 110000000 110000000 true "ABC123" "webcam"
                None None 30 restarted in
  call.1 = false
  ∧ plate_cache call.2 !! cache_key "ABC123" "webcam" = Some 110000000
  ∧ plate_cache call.2 !! cache_key "ABC123" "webcam" ≠ Some (100 * MICRO).
Proof. by vm_compute. Qed.

(** C3, amended: when the key is absent from Tier 1 at the lookup and the
    table holds a record of that code and source newer than now minus the
    window, the call returns false, the key is entered in Tier 1 with the
    current time, and the table is unchanged. *)
Theorem tier2_backfill st code src W s t ip ib row :
  blank code = false →
  cleanup_cache s (plate_cache st) !! cache_key code src = None →
  row ∈ plates st → plate_text row = code → camera_source row = src →
  strftime (t - W * MICRO) < timestamp row →
  let call := add_plate_reading s t true code src ip ib W st in
  call.1 = false
  ∧ plate_cache call.2 !! cache_key code src = Some t
  ∧ plates call.2 = plates st.
Proof.
  intros Hb Hk Hin Hp Hc Ht call. subst call.
  rewrite (add_plate_reading_tier2 s t code src ip ib W st row
             Hb Hk Hin Hp Hc Ht).
  simpl. by rewrite lookup_insert_eq.
Qed.

(** C3, amended, on the run of the counterexample. *)
Lemma tier2_backfill_witness :
  let call := add_plate_reading 110000000 110000000 true "ABC123" "webcam"
                None None 30 restarted in
  call.1 = false
  ∧ plate_cache call.2 !! cache_key "ABC123" "webcam" = Some 110000000
  ∧ plates call.2 = plates restarted.
Proof.
  refine (tier2_backfill restarted "ABC123" "webcam" 30 110000000 110000000
            None None
            {| plate_text := "ABC123"; timestamp := 100;
               camera_source := "webcam"; image_path := None;
               image_base64 := None |} _ _ _ _ _ _).
  - reflexivity.
  - vm_compute. reflexivity.
  - apply list_elem_of_here.
  - reflexivity.
  - reflexivity.
  - vm_compute. reflexivity.
Defined.

(** The sweep takes an entry out whenever its age, in whole seconds, is
    above 60 and below one day. *)
Lemma cleanup_cache_removes now cache k seen :
  cache !! k = Some seen →
  61 * MICRO ≤ now - seen < 86400 * MICRO →
  cleanup_cache now cache !! k = None.
Proof.
  intros Hk Hage. rewrite lookup_cleanup_cache, Hk.
  assert (60 < td_seconds (now - seen)) as Hs; [|by rewrite (proj2 (Z.ltb_lt _ _) Hs)].
  unfold td_seconds, MICRO in *.
  assert (61 ≤ (now - seen) `div` 1000000 < 86400) as Hq.
  { split; [apply Z.div_le_lower_bound; lia | apply Z.div_lt_upper_bound; lia]. }
  rewrite Z.mod_small; lia.
Qed.

(** Every call with a plate text that is not blank starts with the sweep:
    whatever the outcome, an entry for another key is in Tier 1 afterwards
    exactly when the sweep has kept it. *)
Lemma add_plate_reading_sweeps s t up code src ip ib W st k :
  blank code = false → k ≠ cache_key code src →
  plate_cache (add_plate_reading s t up code src ip ib W st).2 !! k
  = cleanup_cache s (plate_cache st) !! k.
Proof.
  intros Hb Hne. unfold add_plate_reading. rewrite Hb. cbv zeta.
  repeat case_match; simpl; by rewrite ?lookup_insert_ne.
Qed.

(** C5, on the code: an entry recorded one day and ten seconds before
    the sweep is far older than 60 seconds, and the sweep keeps it: the
    seconds field of a time difference starts again from 0 every day.  An
    entry 60.5 seconds old is kept as well, the field being cut to whole
    seconds.  The same happens to the sweep inside [add_plate_reading]. *)
Theorem cleanup_cache_keeps_old_entries :
  (60 * MICRO < 86410 * MICRO - 0
   ∧ cleanup_cache (86410 * MICRO) one_entry !! "ABC123_webcam" = Some 0)
  ∧ (60 * MICRO < 60500000 - 0
     ∧ cleanup_cache 60500000 one_entry !! "ABC123_webcam" = Some 0)
  ∧ plate_cache
      (add_plate_reading (86410 * MICRO) (86410 * MICRO) true "XYZ789"
         "webcam" None None 30
         {| plate_cache := one_entry; plates := [] |}).2
      !! "ABC123_webcam" = Some 0.
Proof. by vm_compute. Qed.

End dedup_claims.

(** ** The camera manager *)

Local Open Scope list_scope.

Section manager_claims.
Context `{Cv2} (CAMERA_SOURCES : gmap string endpoint).
Implicit Types (m : Machine) (cap : Capture) (name : string)
  (source_name : option string) (t : list event).

Lemma select_calls_app t t' :
  select_calls (t ++ t') = select_calls t ++ select_calls t'.
Proof. apply omap_app. Qed.

(** One run of [select_source] enters [select_source] once: whatever it
    goes on to do, releasing, opening, waiting, its part of the trace
    holds the one call and no other. *)
Lemma select_source_calls source_name m :
  select_calls (trace (select_source CAMERA_SOURCES source_name m).2)
  = select_calls (trace m) ++ [source_name].
Proof.
  unfold select_source, already_active, release_current_source, bind, log,
    get_self, put_self, ask, perform, ret.
  repeat (case_match; simplify_eq/=);
    rewrite ?select_calls_app; simpl; by rewrite ?app_nil_r.
Qed.

(** C9: when the read on the open source fails, [get_frame] makes exactly
    one call of [select_source], with the source that is active, and then
    returns [(False, None)] whatever that call returned: the machine it
    leaves is the one this single call leaves after the failed read. *)
Theorem get_frame_read_failure m cap w' :
  current_cap (self m) = Some cap →
  isOpened cap (world m) = true →
  read cap (world m) = (None, w') →
  let after_read :=
    {| self := self m; world := w'; trace := trace m ++ [Do_read] |} in
  let reselect :=
    select_source CAMERA_SOURCES (active_source (self m)) after_read in
  get_frame CAMERA_SOURCES m = (Returns (false, None), reselect.2)
  ∧ select_calls (trace (get_frame CAMERA_SOURCES m).2)
    = select_calls (trace m) ++ [active_source (self m)].
Proof.
  intros Hcap Hopen Hread after_read reselect.
  assert (get_frame CAMERA_SOURCES m = (Returns (false, None), reselect.2)) as Hg.
  { unfold get_frame, bind, get_self, ask, log, perform, ret.
    simpl. rewrite Hcap, Hopen. simpl. rewrite Hread. simpl.
    subst reselect after_read. by destruct (select_source _ _ _). }
  split; [done |]. rewrite Hg. subst reselect. cbn [snd].
  rewrite select_source_calls. subst after_read. cbn [trace].
  rewrite select_calls_app. simpl. by rewrite app_nil_r.
Qed.

(** C10: a call of [select_source] with a name that is not configured,
    made while a source is open, returns [False] and leaves the manager
    and the outside world as they were: nothing is released, the open
    source stays open and active. *)
Theorem select_source_unknown m name cap :
  CAMERA_SOURCES !! name = None →
  current_cap (self m) = Some cap →
  isOpened cap (world m) = true →
  let call := select_source CAMERA_SOURCES (Some name) m in
  call.1 = false
  ∧ self call.2 = self m
  ∧ world call.2 = world m
  ∧ trace call.2 = trace m ++ [Call_select_source (Some name)]
  ∧ current_cap (self call.2) = Some cap
  ∧ isOpened cap (world call.2) = true.
Proof.
  intros Hname Hcap Hopen call. subst call.
  unfold select_source, bind, log, ret. simpl. rewrite Hname. simpl.
  by split_and!.
Qed.

End manager_claims.

(** C9 on the simulated link: the webcam is open and has no frame left. *)
Lemma get_frame_read_failure_witness :
  get_frame (H := lossy_link) config.CAMERA_SOURCES webcam_open
  = (Returns (false, None),
     (select_source (H := lossy_link) config.CAMERA_SOURCES
        (active_source (self webcam_open))
        {| self := self webcam_open; world := 0%nat;
           trace := trace webcam_open ++ [Do_read] |}).2)
  ∧ select_calls (trace (get_frame (H := lossy_link) config.CAMERA_SOURCES
                           webcam_open).2)
    = select_calls (trace webcam_open) ++ [active_source (self webcam_open)].
Proof.
  refine (get_frame_read_failure (H := lossy_link) config.CAMERA_SOURCES
            webcam_open (Index 0) 0%nat _ _ _); reflexivity.
Defined.

(** C10 on the simulated link: a name that [config.py] does not list. *)
Lemma select_source_unknown_witness :
  let call := select_source (H := lossy_link) config.CAMERA_SOURCES
                (Some "usb_cam") webcam_open in
  call.1 = false
  ∧ self call.2 = self webcam_open
  ∧ world call.2 = world webcam_open
  ∧ trace call.2 = trace webcam_open ++ [Call_select_source (Some "usb_cam")]
  ∧ current_cap (self call.2) = Some (Index 0)
  ∧ isOpened (Cv2 := lossy_link) (Index 0) (world call.2) = true.
Proof.
  refine (select_source_unknown (H := lossy_link) config.CAMERA_SOURCES
            webcam_open "usb_cam" (Index 0) _ _ _).
  - vm_compute. reflexivity.
  - vm_compute. reflexivity.
  - reflexivity.
Defined.

(** * Further properties of the code *)

Import database_admin camera_manager_more.

(** ** The normaliser: shape of the result, idempotence *)

Section normalizer_more.
Local Open Scope string_scope.
Implicit Types (s text x : string) (c : ascii) (p : list cls).

Abbreviation hyphen_free := (λ c, negb (is_hyphen c)).
Abbreviation alnum := (λ c, is_AZ c || is_09 c).

Lemma all_app (f : ascii → bool) s r :
  all f (s +:+ r) = all f s && all f r.
Proof.
  induction s as [|c s IH]; [done |].
  rewrite app_cons. simpl. by rewrite IH, andb_assoc.
Qed.

Lemma str_length_app s r :
  String.length (s +:+ r) = (String.length s + String.length r)%nat.
Proof.
  induction s as [|c s IH]; [done |]. rewrite app_cons. simpl. by rewrite IH.
Qed.

Lemma has_shape_alnum p s : has_shape p s = true → all alnum s = true.
Proof.
  revert s. induction p as [|k p IH]; intros [|c s]; simpl; try done.
  intros [Hc Hs]%andb_prop. rewrite (IH _ Hs), andb_true_r.
  destruct k; simpl in Hc; rewrite Hc; by rewrite ?orb_true_r.
Qed.

Lemma alnum_allowed s : all alnum s = true → all allowed s = true.
Proof. apply all_weaken. intros c Hc. unfold allowed. by rewrite Hc. Qed.

Lemma alnum_hyphen_free s : all alnum s = true → all hyphen_free s = true.
Proof.
  apply all_weaken. intros c.
  unfold is_AZ, is_09, is_hyphen, in_range.
  repeat match goal with
         | |- context [(?a <=? ?b)%N] => destruct (N.leb_spec a b)
         | |- context [(?a =? ?b)%N] => destruct (N.eqb_spec a b)
         end; simpl; intros; try done; lia.
Qed.

(** What a valid text looks like once its separators are gone: six
    characters, letters and digits only, in one of the six shapes. *)
Lemma is_valid_clean x :
  is_valid_peruvian_plate x = true →
  let clean := remove_separators x in
  String.length clean = 6%nat ∧ all alnum clean = true
  ∧ existsb (λ p, has_shape p clean) patterns = true.
Proof.
  intros Hv clean. pose proof (is_valid_shape _ Hv) as Hs. fold clean in Hs.
  split_and!; [| |done]; apply existsb_exists in Hs as (p & Hp & Hm).
  - rewrite (has_shape_length _ _ Hm). apply patterns_length.
    by apply list_elem_of_In.
  - by apply has_shape_alnum in Hm.
Qed.

Lemma all_take_drop (f : ascii → bool) n s :
  all f s = true → all f (take n s) = true ∧ all f (drop n s) = true.
Proof.
  intros Hs. rewrite <- (take_drop n s), all_app in Hs.
  by apply andb_prop in Hs.
Qed.

Lemma length_take_drop n s :
  (String.length (take n s) + String.length (drop n s))%nat = String.length s.
Proof. by rewrite <- str_length_app, take_drop. Qed.

Lemma prefix_run_head c s :
  is_hyphen c = false → String.prefix "--" (String c s) = false.
Proof.
  intros Hc.
  change (String.prefix "--" (String c s))
    with (if ascii_dec "-" c then String.prefix "-" s else false).
  destruct (ascii_dec "-" c) as [<-|]; [|done].
  by vm_compute in Hc.
Qed.

Lemma prefix_run_second c c' s :
  is_hyphen c' = false → String.prefix "--" (String c (String c' s)) = false.
Proof.
  intros Hc.
  change (String.prefix "--" (String c (String c' s)))
    with (if ascii_dec "-" c
          then if ascii_dec "-" c' then String.prefix "" s else false
          else false).
  destruct (ascii_dec "-" c); [|done].
  destruct (ascii_dec "-" c') as [<-|]; [|done].
  by vm_compute in Hc.
Qed.

Lemma no_run_hyphen_free s :
  all hyphen_free s = true → contains "--" s = false.
Proof.
  induction s as [|c s IH]; [done |].
  simpl all. intros [Hc%negb_true_iff Hs]%andb_prop.
  cbn [contains]. by rewrite (prefix_run_head _ _ Hc), (IH Hs).
Qed.

Lemma no_run_insert s r :
  all hyphen_free s = true → all hyphen_free r = true →
  contains "--" (s +:+ "-" +:+ r) = false.
Proof.
  intros Hs Hr. induction s as [|c s IH].
  - rewrite app_nil. change ("-" +:+ r) with (String "-" r).
    cbn [contains]. rewrite (no_run_hyphen_free _ Hr), orb_false_r.
    destruct r as [|c r]; [done |].
    simpl in Hr. apply andb_prop in Hr as [Hc%negb_true_iff _].
    by apply prefix_run_second.
  - simpl in Hs. apply andb_prop in Hs as [Hc%negb_true_iff Hs].
    rewrite app_cons. cbn [contains].
    by rewrite (prefix_run_head _ _ Hc), (IH Hs).
Qed.

(** The formatted form of a valid text: six or seven characters, allowed
    ones only, never two hyphens in a row. *)
Lemma format_plate_valid_form x :
  is_valid_peruvian_plate x = true →
  (6 ≤ String.length (format_plate x) ≤ 7)%nat
  ∧ all allowed (format_plate x) = true
  ∧ contains "--" (format_plate x) = false.
Proof.
  intros (Hlen & Hal & _)%is_valid_clean.
  pose proof (alnum_allowed _ Hal) as Ha.
  pose proof (alnum_hyphen_free _ Hal) as Hh.
  destruct (all_take_drop allowed 3 _ Ha) as [Ha1 Ha2].
  destruct (all_take_drop hyphen_free 3 _ Hh) as [Hh1 Hh2].
  pose proof (length_take_drop 3 (remove_separators x)) as Hl.
  destruct (format_plate_cases x) as [-> | ->].
  - rewrite Hlen. split_and!; try lia; [done | by apply no_run_hyphen_free].
  - rewrite !str_length_app, !all_app, Ha1, Ha2.
    change (String.length "-") with 1%nat.
    split_and!; try lia; [reflexivity | by apply no_run_insert].
Qed.

Lemma cleaned_of_fixed s :
  all allowed s = true → contains "--" s = false → cleaned_of s = s.
Proof.
  intros Ha Hr. unfold cleaned_of.
  by rewrite (upper_allowed _ Ha), (strip_allowed _ Ha), (keep_all _ _ Ha),
    (collapse_no_run _ Hr).
Qed.

Lemma collapse_hyphens_no_run s : contains "--" (collapse_hyphens s) = false.
Proof.
  induction s as [|c s IH]; [done |].
  change (collapse_hyphens (String c s)) with
    (if is_hyphen c then
       match s with
       | String c' _ =>
           if is_hyphen c' then collapse_hyphens s
           else String c (collapse_hyphens s)
       | EmptyString => String c EmptyString
       end
     else String c (collapse_hyphens s)).
  destruct (is_hyphen c) eqn:Ec.
  - destruct s as [|c' s']; [apply is_hyphen_eq in Ec as ->; by vm_compute |].
    destruct (is_hyphen c') eqn:Ec'; [done |].
    cbn [contains]. rewrite IH, orb_false_r.
    change (collapse_hyphens (String c' s')) with
      (if is_hyphen c' then
         match s' with
         | String c'' _ =>
             if is_hyphen c'' then collapse_hyphens s'
             else String c' (collapse_hyphens s')
         | EmptyString => String c' EmptyString
         end
       else String c' (collapse_hyphens s')).
    rewrite Ec'. by apply prefix_run_second.
  - cbn [contains]. by rewrite (prefix_run_head _ _ Ec), IH.
Qed.

Lemma cleaned_of_idempotent text : cleaned_of (cleaned_of text) = cleaned_of text.
Proof.
  apply cleaned_of_fixed; [apply all_allowed_cleaned_of |].
  apply collapse_hyphens_no_run.
Qed.

Lemma remove_separators_format x :
  remove_separators (format_plate x) = remove_separators x.
Proof.
  unfold remove_separators at 1.
  destruct (format_plate_cases x) as [-> | ->].
  - apply keep_all, all_keep.
  - rewrite !keep_app.
    change (keep (λ c, negb (is_hyphen c || is_space c)) "-") with "".
    rewrite app_nil, <- keep_app, take_drop. apply keep_all, all_keep.
Qed.

Lemma format_plate_ext x y :
  remove_separators x = remove_separators y → format_plate x = format_plate y.
Proof. intros Hxy. unfold format_plate. by rewrite Hxy. Qed.

Lemma format_plate_fixed x : format_plate (format_plate x) = format_plate x.
Proof. apply format_plate_ext, remove_separators_format. Qed.

Lemma shape_is_valid x :
  existsb (λ p, has_shape p (remove_separators x)) patterns = true →
  is_valid_peruvian_plate x = true.
Proof.
  intros Hs. pose proof Hs as (p & Hp & Hm)%existsb_exists.
  pose proof (has_shape_length _ _ Hm) as Hlen.
  rewrite (patterns_length p) in Hlen by by apply list_elem_of_In.
  pose proof (length_keep_le (λ c, negb (is_hyphen c || is_space c)) x) as Hle.
  fold (remove_separators x) in Hle.
  unfold is_valid_peruvian_plate.
  assert (is_empty x = false) as -> by (destruct x; [simpl in *; lia | done]).
  assert ((String.length x <? 5)%nat = false) as -> by (apply Nat.ltb_ge; lia).
  rewrite Hlen. cbn [Nat.ltb Nat.leb orb]. apply existsb_exists.
  exists p. split; [done |]. by apply has_shape_re_match.
Qed.

Lemma format_plate_is_valid x :
  is_valid_peruvian_plate x = true →
  is_valid_peruvian_plate (format_plate x) = true.
Proof.
  intros Hv. apply shape_is_valid. rewrite remove_separators_format.
  by apply is_valid_shape.
Qed.

(** The normaliser leaves a formatted valid plate as it is. *)
Lemma clean_text_format_plate x :
  is_valid_peruvian_plate x = true →
  clean_text (format_plate x) = format_plate x.
Proof.
  intros Hv.
  destruct (format_plate_valid_form x Hv) as ([Hlo Hhi] & Ha & Hr).
  unfold clean_text. rewrite (cleaned_of_fixed _ Ha Hr).
  assert (is_empty (format_plate x) = false) as ->
    by (destruct (format_plate x); [simpl in *; lia | done]).
  assert ((String.length (format_plate x) <? 5)%nat = false) as ->
    by (apply Nat.ltb_ge; lia).
  assert ((9 <? String.length (format_plate x))%nat = false) as ->
    by (apply Nat.ltb_ge; lia).
  cbn [orb]. by rewrite (format_plate_is_valid _ Hv), format_plate_fixed.
Qed.

Lemma clean_text_form text :
  clean_text text = ""
  ∨ ((5 ≤ String.length (clean_text text) ≤ 8)%nat
     ∧ all allowed (clean_text text) = true
     ∧ contains "--" (clean_text text) = false).
Proof.
  assert (∀ x, is_valid_peruvian_plate x = true →
               (5 ≤ String.length (format_plate x) ≤ 8)%nat
               ∧ all allowed (format_plate x) = true
               ∧ contains "--" (format_plate x) = false) as Hfmt.
  { intros x Hx. destruct (format_plate_valid_form x Hx) as (? & ? & ?).
    split_and!; try done; lia. }
  unfold clean_text.
  destruct (is_empty text); [by left |].
  destruct (_ || _)%bool; [by left |].
  destruct (is_valid_peruvian_plate (cleaned_of text)) eqn:Hv.
  { right. by apply Hfmt. }
  destruct (try_corrections _ _) as [plate|] eqn:Ht.
  { apply try_corrections_valid in Ht as (x & Hx & ->). right. by apply Hfmt. }
  destruct (List.find _ _) as [variation|] eqn:Hf.
  { apply find_some in Hf as [_ Hx]. right. by apply Hfmt. }
  destruct (_ && _)%bool eqn:Hlen; [|by left].
  apply andb_prop in Hlen as [Hlo%Nat.leb_le Hhi%Nat.leb_le].
  right. split_and!; try done.
  - apply all_allowed_cleaned_of.
  - apply collapse_hyphens_no_run.
Qed.

Lemma clean_text_cleaned_twice text :
  clean_text (clean_text text) = clean_text text.
Proof.
  unfold clean_text at 2 3.
  destruct (is_empty text); [done |].
  destruct (_ || _)%bool eqn:Hout; [done |].
  destruct (is_valid_peruvian_plate (cleaned_of text)) eqn:Hv.
  { by apply clean_text_format_plate. }
  destruct (try_corrections _ _) as [plate|] eqn:Ht.
  { pose proof Ht as (x & Hx & ->)%try_corrections_valid.
    by apply clean_text_format_plate. }
  destruct (List.find _ _) as [variation|] eqn:Hf.
  { pose proof Hf as [_ Hx]%find_some. by apply clean_text_format_plate. }
  destruct (_ && _)%bool eqn:Hlen; [|done].
  pose proof Hlen as [Hlo%Nat.leb_le Hhi%Nat.leb_le]%andb_prop.
  unfold clean_text. rewrite cleaned_of_idempotent, Hout, Hv, Ht, Hf, Hlen.
  by destruct (cleaned_of text); [simpl in *; lia |].
Qed.

(** The result of the normaliser is empty or five to eight characters
    long, made of capital letters, digits and single hyphens: a cleaned
    text of nine characters is returned only through the formatter, which
    brings it down to six or seven. *)
Theorem clean_text_result_form text :
  clean_text text = ""
  ∨ ((5 ≤ String.length (clean_text text) ≤ 8)%nat
     ∧ all allowed (clean_text text) = true
     ∧ contains "--" (clean_text text) = false).
Proof. apply clean_text_form. Qed.

(** Normalising twice is normalising once. *)
Theorem clean_text_idempotent text :
  clean_text (clean_text text) = clean_text text.
Proof. apply clean_text_cleaned_twice. Qed.

(** The formatter looks at letters and digits only: it gives the same
    result whatever the separators of its input, its own output
    included. *)
Theorem format_plate_idempotent x :
  format_plate (format_plate x) = format_plate x
  ∧ format_plate (remove_separators x) = format_plate x.
Proof.
  split; [apply format_plate_fixed |].
  apply format_plate_ext. apply keep_all, all_keep.
Qed.

(** The validator is blind to separators: a text is valid exactly when,
    hyphens and white space removed, it has one of the six shapes; its
    two tests on the length never decide anything. *)
Theorem is_valid_peruvian_plate_shapes x :
  is_valid_peruvian_plate x
  = existsb (λ p, has_shape p (remove_separators x)) patterns.
Proof.
  apply eq_true_iff_eq. split; [apply is_valid_shape | apply shape_is_valid].
Qed.

(** The normaliser sees a raw text through its cleaned form only. *)
Theorem clean_text_cleaned_of text :
  clean_text (cleaned_of text) = clean_text text.
Proof.
  unfold clean_text. rewrite cleaned_of_idempotent.
  destruct text as [|c text]; [done |].
  destruct (cleaned_of (String c text)) eqn:Hc; done.
Qed.

End normalizer_more.

(** ** The table and the cache under the other operations *)

Section store_more.
Local Open Scope Z_scope.
Implicit Types (st : State) (code src plate : string) (W s t now : Z)
  (ip ib : option string) (rows : list Row) (r : Row).

(** [add_plate_reading] answers [True] exactly when it has stored the
    reading: on [True] the table has gained one row, the reading stamped
    with the second of the call, and on [False] the table is as it was. *)
Theorem add_plate_reading_stores s t up code src ip ib W st :
  let call := add_plate_reading s t up code src ip ib W st in
  plates call.2
  = (if call.1
     then plates st ++ [{| plate_text := code; timestamp := strftime t;
                           camera_source := src; image_path := ip;
                           image_base64 := ib |}]
     else plates st)%list
  ∧ get_total_plates true call.2
    = (get_total_plates true st + if call.1 then 1 else 0)%nat.
Proof.
  unfold add_plate_reading, get_total_plates.
  repeat case_match; simpl; rewrite ?length_app; simpl; split; done || lia.
Qed.

Lemma no_future_mono now now' st :
  no_future now st → now ≤ now' → no_future now' st.
Proof.
  intros [Hc Hr] Hle. split.
  - intros k seen Hk. specialize (Hc k seen Hk). simpl in *. lia.
  - eapply Forall_impl; [done |]. intros r Hs. simpl in *.
    pose proof (strftime_mono _ _ Hle). lia.
Qed.

Lemma cleanup_cache_Forall (P : string → Z → Prop) now cache :
  map_Forall P cache → map_Forall P (cleanup_cache now cache).
Proof.
  intros Hc k seen. rewrite lookup_cleanup_cache.
  destruct (cache !! k) as [seen'|] eqn:Hk; [|done].
  destruct (60 <? _); [done |]. intros [= <-]. by apply Hc.
Qed.

Lemma filter_Forall (P : Row → Prop) (f : Row → bool) rows :
  Forall P rows → Forall P (List.filter f rows).
Proof.
  induction 1 as [|r rows Hr Hrows IH]; simpl; [done |].
  destruct (f r); [by constructor | done].
Qed.

(** When the clock never runs backwards, nothing in Tier 1 or in the
    table is ever stamped after the present: each operation keeps this,
    starting from the empty state. *)
Theorem no_future_kept now st :
  no_future now st →
  (∀ s t up code src ip ib W,
     now ≤ t → no_future t (add_plate_reading s t up code src ip ib W st).2)
  ∧ (∀ t, now ≤ t → no_future t (get_cache_stats t st).2)
  ∧ no_future now (clear_dedup_cache st)
  ∧ (∀ up, no_future now (clear_all_plates up st).2)
  ∧ (∀ up tie plate stamp, no_future now (delete_plate up tie plate stamp st).2).
Proof.
  intros Hnow. split_and!.
  - intros s t up code src ip ib W Hle.
    destruct (no_future_mono _ _ _ Hnow Hle) as [Hc Hr].
    pose proof (cleanup_cache_Forall _ s _ Hc) as Hc'.
    unfold add_plate_reading.
    repeat case_match; simpl; split; simpl; try done.
    all: try (apply map_Forall_insert_2; [simpl; lia | done]).
    all: apply Forall_app; split; [done |]; by repeat constructor.
  - intros t Hle. destruct (no_future_mono _ _ _ Hnow Hle) as [Hc Hr].
    split; [by apply cleanup_cache_Forall | done].
  - destruct Hnow as [Hc Hr]. split; simpl; [apply map_Forall_empty | done].
  - intros up. destruct Hnow as [Hc Hr]. unfold clear_all_plates.
    destruct up; split; simpl; done.
  - intros up tie plate stamp. destruct Hnow as [Hc Hr]. unfold delete_plate.
    repeat case_match; simpl; split; simpl; try done.
    + by apply filter_Forall.
    + by apply Forall_delete.
Qed.

Lemma no_future_kept_witness :
  no_future 5000000
    (add_plate_reading 5000000 5000000 true "ABC123" "webcam" None None 30
       initial).2.
Proof.
  refine (proj1 (no_future_kept 0 initial _) 5000000 5000000 true "ABC123"
            "webcam" None None 30 _).
  - split; [apply map_Forall_empty | constructor].
  - lia.
Defined.

(** Per key, the time recorded in Tier 1 never goes down as long as the
    clock does not: a call leaves the entry of a key as it was, removes
    it, or sets it to the time of the call. *)
Theorem cache_times_never_decrease now st s t up code src ip ib W k old new :
  no_future now st → now ≤ t →
  plate_cache st !! k = Some old →
  plate_cache (add_plate_reading s t up code src ip ib W st).2 !! k = Some new →
  old ≤ new.
Proof.
  intros [Hc _] Hle Hold. specialize (Hc k old Hold). simpl in Hc.
  assert (∀ seen, cleanup_cache s (plate_cache st) !! k = Some seen →
                  seen = old) as Hsweep.
  { intros seen. rewrite lookup_cleanup_cache, Hold.
    destruct (60 <? _); [done | congruence]. }
  unfold add_plate_reading.
  repeat case_match; simpl; intros Hnew.
  all: try (rewrite Hold in Hnew; injection Hnew as <-; lia).
  all: try (apply Hsweep in Hnew as ->; lia).
  all: destruct (decide (k = cache_key code src)) as [->|Hne];
    [rewrite lookup_insert_eq in Hnew; injection Hnew as <-; lia
    |rewrite lookup_insert_ne in Hnew by done; apply Hsweep in Hnew as ->; lia].
Qed.

Lemma cache_times_never_decrease_witness : 0 ≤ 40000000.
Proof.
  refine (cache_times_never_decrease 0
            {| plate_cache := one_entry; plates := [] |}
            40000000 40000000 true
            "ABC123" "webcam" None None 30 "ABC123_webcam" 0 40000000
            _ _ _ _).
  - split; [by apply map_Forall_singleton | constructor].
  - lia.
  - vm_compute. reflexivity.
  - vm_compute. reflexivity.
Defined.

(** Tier 1 decides alone inside its horizon: once a reading has been
    accepted, a repeat less than 61 seconds later and inside the window is
    rejected whatever has become of the table in between. *)
Lemma repeat_rejected_by_cache st0 code src W s1 t1 up1 ip1 ib1 st1
    s2 t2 up2 ip2 ib2 rows :
  add_plate_reading s1 t1 up1 code src ip1 ib1 W st0 = (true, st1) →
  t1 ≤ s2 ≤ t2 → t2 - t1 < 61 * MICRO → t2 - t1 < W * MICRO →
  let repeat := add_plate_reading s2 t2 up2 code src ip2 ib2 W
                  {| plate_cache := plate_cache st1; plates := rows |} in
  repeat.1 = false ∧ plates repeat.2 = rows.
Proof.
  intros (Hb & -> & Hc1 & Hp1)%add_plate_reading_accept Hs2 Hd61 Hd repeat.
  subst repeat.
  rewrite (add_plate_reading_tier1 s2 t2 up2 code src ip2 ib2 W _ t1); try done.
  simpl. rewrite lookup_cleanup_cache, Hc1, lookup_insert_eq.
  by rewrite td_seconds_small by lia.
Qed.

(** Emptying the table, or deleting the record of a plate, does not let
    the plate back in: Tier 1 is not touched by [clear_all_plates] and
    [delete_plate], so a repeat less than 61 seconds after the accepted
    reading and inside the window is still rejected, and the table stays
    without it. *)
Theorem table_cleared_repeat_rejected st0 code src W s1 t1 up1 ip1 ib1 st1
    s2 t2 up2 ip2 ib2 tie stamp :
  add_plate_reading s1 t1 up1 code src ip1 ib1 W st0 = (true, st1) →
  t1 ≤ s2 ≤ t2 → t2 - t1 < 61 * MICRO → t2 - t1 < W * MICRO →
  let wiped := (clear_all_plates true st1).2 in
  let pruned := (delete_plate true tie code stamp st1).2 in
  (let repeat := add_plate_reading s2 t2 up2 code src ip2 ib2 W wiped in
   repeat.1 = false ∧ plates repeat.2 = [])
  ∧ (let repeat := add_plate_reading s2 t2 up2 code src ip2 ib2 W pruned in
     repeat.1 = false ∧ plates repeat.2 = plates pruned).
Proof.
  intros Hacc Hs2 Hd61 Hd wiped pruned. split.
  - exact (repeat_rejected_by_cache st0 code src W s1 t1 up1 ip1 ib1 st1
             s2 t2 up2 ip2 ib2 [] Hacc Hs2 Hd61 Hd).
  - assert (pruned = {| plate_cache := plate_cache st1;
                        plates := plates pruned |}) as ->.
    { subst pruned. unfold delete_plate. simpl.
      repeat case_match; simpl; by destruct st1. }
    exact (repeat_rejected_by_cache st0 code src W s1 t1 up1 ip1 ib1 st1
             s2 t2 up2 ip2 ib2 _ Hacc Hs2 Hd61 Hd).
Qed.

Lemma table_cleared_repeat_rejected_witness :
  (let repeat := add_plate_reading 5000000 5000000 true "ABC123" "webcam"
                   None None 30 (clear_all_plates true seen_once).2 in
   repeat.1 = false ∧ plates repeat.2 = [])
  ∧ (let repeat := add_plate_reading 5000000 5000000 true "ABC123" "webcam"
                     None None 30
                     (delete_plate true 0 "ABC123" None seen_once).2 in
     repeat.1 = false
     ∧ plates repeat.2
       = plates (delete_plate true 0 "ABC123" None seen_once).2).
Proof.
  refine (table_cleared_repeat_rejected initial "ABC123" "webcam" 30 0 0 true
            None None seen_once 5000000 5000000 true None None 0%nat None
            _ _ _ _).
  - vm_compute. reflexivity.
  - lia.
  - vm_compute. reflexivity.
  - vm_compute. reflexivity.
Defined.

(** After both the table and Tier 1 have been cleared, in either order,
    the next reading with a plate text that is not blank is accepted,
    whenever it comes and whatever was stored before. *)
Theorem full_reset_accepts st s t code src ip ib W :
  (is_empty code || is_empty (strip code))%bool = false →
  (add_plate_reading s t true code src ip ib W
     (clear_dedup_cache (clear_all_plates true st).2)).1 = true
  ∧ (add_plate_reading s t true code src ip ib W
       (clear_all_plates true (clear_dedup_cache st)).2).1 = true.
Proof.
  intros Hb. split; apply add_plate_reading_fresh; try done; simpl.
  all: try (intros seen; by rewrite lookup_cleanup_cache).
  all: intros r Hr; by apply elem_of_nil in Hr.
Qed.

Lemma full_reset_accepts_witness :
  (add_plate_reading 1000000 1000000 true "ABC123" "webcam" None None 30
     (clear_dedup_cache (clear_all_plates true seen_once).2)).1 = true
  ∧ (add_plate_reading 1000000 1000000 true "ABC123" "webcam" None None 30
       (clear_all_plates true (clear_dedup_cache seen_once)).2).1 = true.
Proof.
  refine (full_reset_accepts seen_once 1000000 1000000 "ABC123" "webcam"
            None None 30 _).
  reflexivity.
Defined.

Lemma newest_None plate rows :
  newest plate rows = None → ∀ r, r ∈ rows → plate_text r ≠ plate.
Proof.
  induction rows as [|r0 rows IH]; simpl; intros Hn r Hr.
  - by apply elem_of_nil in Hr.
  - destruct (String.eqb_spec (plate_text r0) plate) as [|Hne]; [done |].
    apply elem_of_cons in Hr as [->|Hr]; [done | by apply IH].
Qed.

Lemma newest_Some plate rows m :
  newest plate rows = Some m →
  (∃ r, r ∈ rows ∧ plate_text r = plate ∧ timestamp r = m)
  ∧ ∀ r, r ∈ rows → plate_text r = plate → timestamp r ≤ m.
Proof.
  revert m. induction rows as [|r0 rows IH]; simpl; intros m Hm; [done |].
  destruct (String.eqb_spec (plate_text r0) plate) as [Heq|Hne].
  - destruct (newest plate rows) as [m'|] eqn:Hn.
    + destruct (IH m' eq_refl) as [(r & Hr & Hp & Ht) Hmax].
      injection Hm as <-. split.
      * destruct (Z.max_spec (timestamp r0) m') as [[_ ->]|[_ ->]].
        -- exists r. split_and!; [by apply list_elem_of_further | done..].
        -- exists r0. split_and!; [apply list_elem_of_here | done..].
      * intros r' [->|Hr']%elem_of_cons Hp'; [lia |].
        specialize (Hmax r' Hr' Hp'). lia.
    + injection Hm as <-. split.
      * exists r0. split_and!; [apply list_elem_of_here | done..].
      * intros r' [->|Hr']%elem_of_cons Hp'; [lia |].
        by destruct (newest_None _ _ Hn r' Hr').
  - destruct (IH m Hm) as [(r & Hr & Hp & Ht) Hmax]. split.
    + exists r. split_and!; [by apply list_elem_of_further | done..].
    + intros r' [->|Hr']%elem_of_cons Hp'; [done | by apply Hmax].
Qed.

Lemma candidates_spec plate rows i :
  i ∈ candidates plate rows →
  ∃ r, rows !! i = Some r ∧ plate_text r = plate
       ∧ ∀ r', r' ∈ rows → plate_text r' = plate → timestamp r' ≤ timestamp r.
Proof.
  unfold candidates. destruct (newest plate rows) as [m|] eqn:Hn.
  - intros [_ Hi]%list_elem_of_In%filter_In.
    destruct (rows !! i) as [r|]; [|done]. exists r.
    unfold is_reading in Hi.
    apply andb_prop in Hi as [Hp%String.eqb_eq Ht%Z.eqb_eq].
    split_and!; try done. rewrite Ht. by apply newest_Some.
  - intros Hi. by apply elem_of_nil in Hi.
Qed.

Lemma candidates_nonempty plate rows r :
  r ∈ rows → plate_text r = plate → candidates plate rows ≠ [].
Proof.
  intros Hr Hp. unfold candidates.
  destruct (newest plate rows) as [m|] eqn:Hn.
  - destruct (newest_Some _ _ _ Hn) as [(r' & Hr' & Hp' & Ht') _].
    apply list_elem_of_lookup in Hr' as [i Hi].
    intros Hnil.
    assert (In i (List.filter
                    (λ i, match rows !! i with
                          | Some r => is_reading plate m r
                          | None => false
                          end) (seq 0 (length rows)))) as Hin.
    { apply filter_In. split.
      - apply in_seq. apply lookup_lt_Some in Hi. lia.
      - rewrite Hi. unfold is_reading. rewrite Hp', Ht', String.eqb_refl.
        by rewrite Z.eqb_refl. }
    by rewrite Hnil in Hin.
  - by destruct (newest_None _ _ Hn r Hr).
Qed.

(** What [delete_plate] does without a time stamp. *)
Lemma delete_plate_latest_spec tie plate st :
  let call := delete_plate true tie plate None st in
  if call.1
  then ∃ i r, plates st !! i = Some r ∧ plate_text r = plate
              ∧ (∀ r', r' ∈ plates st → plate_text r' = plate →
                       timestamp r' ≤ timestamp r)
              ∧ call.2 = {| plate_cache := plate_cache st;
                            plates := delete i (plates st) |}
  else (∀ r, r ∈ plates st → plate_text r ≠ plate) ∧ call.2 = st.
Proof.
  unfold delete_plate. cbn [negb].
  destruct (candidates plate (plates st) !! _) as [i|] eqn:Hpick; simpl.
  - apply list_elem_of_lookup_2 in Hpick.
    destruct (candidates_spec _ _ _ Hpick) as (r & Hi & Hp & Hmax).
    by exists i, r.
  - split; [|done]. intros r Hr Hp.
    pose proof (candidates_nonempty _ _ _ Hr Hp) as Hne.
    apply lookup_ge_None in Hpick.
    destruct (candidates plate (plates st)) as [|i0 ids]; [done |].
    pose proof (Nat.mod_upper_bound tie (length (i0 :: ids))). simpl in *. lia.
Qed.


(** Storing a reading and deleting the plate again gives the table back
    as it was, provided every earlier row of the plate is older than the
    reading by at least a clock second. *)
Theorem add_then_delete_plate st s t up code src ip ib W st1 tie :
  add_plate_reading s t up code src ip ib W st = (true, st1) →
  (∀ r, r ∈ plates st → plate_text r = code → timestamp r < strftime t) →
  delete_plate true tie code None st1
  = (true, {| plate_cache := plate_cache st1; plates := plates st |}).
Proof.
  intros (Hb & -> & Hc1 & Hp1)%add_plate_reading_accept Hold.
  pose proof (delete_plate_latest_spec tie code st1) as Hspec.
  cbv zeta in Hspec.
  destruct (delete_plate true tie code None st1) as [ok st2]. simpl in Hspec.
  set (row := {| plate_text := code; timestamp := strftime t;
                 camera_source := src; image_path := ip;
                 image_base64 := ib |}) in *.
  assert (row ∈ plates st1) as Hrow.
  { rewrite Hp1. apply elem_of_app. right. apply list_elem_of_here. }
  destruct ok.
  - destruct Hspec as (i & r & Hi & Hp & Hmax & ->). f_equal. f_equal.
    specialize (Hmax row Hrow eq_refl). simpl in Hmax.
    rewrite Hp1 in Hi |- *.
    destruct (decide (i < length (plates st))%nat) as [Hlt|Hge].
    + rewrite lookup_app_l in Hi by done.
      apply list_elem_of_lookup_2 in Hi. specialize (Hold r Hi Hp). lia.
    + assert (i = length (plates st)) as ->.
      { apply lookup_lt_Some in Hi. rewrite length_app in Hi. simpl in Hi. lia. }
      by rewrite delete_middle, app_nil_r.
  - destruct Hspec as [Hnone _]. by destruct (Hnone row Hrow).
Qed.

Lemma add_then_delete_plate_witness :
  delete_plate true 3 "ABC123" None seen_once
  = (true, {| plate_cache := plate_cache seen_once; plates := plates initial |}).
Proof.
  refine (add_then_delete_plate initial 0 0 true "ABC123" "webcam" None None
            30 seen_once 3 _ _).
  - vm_compute. reflexivity.
  - intros r Hr. by apply elem_of_nil in Hr.
Defined.



(** [get_cache_stats] sweeps before it reports: the size is the number
    of keys it lists, no key is listed twice, the keys are those whose
    entry the sweep keeps, and the swept entries are gone from Tier 1
    afterwards. *)
Theorem get_cache_stats_report now st :
  let report := get_cache_stats now st in
  report.1.1 = length report.1.2
  ∧ NoDup report.1.2
  ∧ (∀ k, k ∈ report.1.2
          ↔ ∃ seen, plate_cache st !! k = Some seen
                    ∧ td_seconds (now - seen) ≤ 60)
  ∧ (∀ k, k ∈ report.1.2 ↔ is_Some (plate_cache report.2 !! k))
  ∧ plates report.2 = plates st.
Proof.
  unfold get_cache_stats. simpl.
  assert (∀ k, k ∈ (map_to_list (cleanup_cache now (plate_cache st))).*1
               ↔ is_Some (cleanup_cache now (plate_cache st) !! k)) as Hkeys.
  { intros k. rewrite list_elem_of_fmap. split.
    - intros ([k' seen] & -> & Hin). apply elem_of_map_to_list in Hin.
      by eexists.
    - intros [seen Hk]. exists (k, seen). split; [done |].
      by apply elem_of_map_to_list. }
  split_and!; try done.
  - by rewrite length_fmap, length_map_to_list.
  - apply NoDup_fst_map_to_list.
  - intros k. rewrite Hkeys, lookup_cleanup_cache.
    destruct (plate_cache st !! k) as [seen|].
    + destruct (Z.ltb_spec 60 (td_seconds (now - seen))); split.
      * by intros [? ?].
      * intros (seen' & [= <-] & ?). lia.
      * intros _. exists seen. split; [done | lia].
      * by eexists.
    + split; [by intros [? ?] | by intros (? & ? & ?)].
Qed.

End store_more.

(** ** The camera manager: outcomes, invariant, order of effects *)

Section manager_more.
Context `{Cv2} (CAMERA_SOURCES : gmap string endpoint).
Implicit Types (m : Machine) (cap : Capture) (name : string)
  (source_name : option string) (t : list event).

Ltac run_manager :=
  unfold get_frame in *;
  unfold select_source, already_active, release_current_source,
    bind, log, get_self, put_self, ask, perform, ret, closed in *.

(** What the answer of [select_source] tells: on [True] the manager
    names the requested source active and holds a capture for it that
    reports open; on [False] either the name is not configured and
    manager and world are as before, or the manager is closed. *)
Theorem select_source_outcome source_name m :
  let call := select_source CAMERA_SOURCES source_name m in
  if call.1
  then active_source (self call.2) = source_name
       ∧ is_Some (source_name ≫= (CAMERA_SOURCES !!.))
       ∧ ∃ cap, current_cap (self call.2) = Some cap
                ∧ isOpened cap (world call.2) = true
  else (source_name ≫= (CAMERA_SOURCES !!.) = None
        ∧ self call.2 = self m ∧ world call.2 = world m)
       ∨ self call.2 = closed.
Proof.
  run_manager.
  destruct (source_name ≫= (CAMERA_SOURCES !!.)) as [path|] eqn:Hpath; simpl;
    [|by left].
  repeat (case_match; simplify_eq/=); try by right.
  all: repeat match goal with
              | Hd : bool_decide _ = true |- _ =>
                  apply bool_decide_eq_true in Hd
              | Hn : negb _ = false |- _ => apply negb_false_iff in Hn
              end.
  all: split_and!; [done | by eexists | by eexists].
Qed.

(** Selecting again the source that is active and open changes
    nothing: the call answers [True] without releasing, opening or
    waiting. *)
Theorem select_source_again source_name m :
  (select_source CAMERA_SOURCES source_name m).1 = true →
  let again := select_source CAMERA_SOURCES source_name
                 (select_source CAMERA_SOURCES source_name m).2 in
  again.1 = true
  ∧ self again.2 = self (select_source CAMERA_SOURCES source_name m).2
  ∧ world again.2 = world (select_source CAMERA_SOURCES source_name m).2
  ∧ trace again.2
    = trace (select_source CAMERA_SOURCES source_name m).2
      ++ [Call_select_source source_name].
Proof.
  intros Hok.
  assert (let call := select_source CAMERA_SOURCES source_name m in
          active_source (self call.2) = source_name
          ∧ is_Some (source_name ≫= (CAMERA_SOURCES !!.))
          ∧ ∃ cap, current_cap (self call.2) = Some cap
                   ∧ isOpened cap (world call.2) = true) as Hout.
  { intros call. subst call. revert Hok. run_manager.
    destruct (source_name ≫= (CAMERA_SOURCES !!.)) as [path|] eqn:Hpath; simpl;
      [|done].
    repeat (case_match; simplify_eq/=); try done.
    all: repeat match goal with
                | Hd : bool_decide _ = true |- _ =>
                    apply bool_decide_eq_true in Hd
                | Hn : negb _ = false |- _ => apply negb_false_iff in Hn
                end.
    all: intros _; split_and!; [done | by eexists | by eexists]. }
  cbv zeta in Hout.
  destruct (select_source CAMERA_SOURCES source_name m) as [ok m1].
  simpl in *. destruct Hout as (Hact & [path Hpath] & cap & Hcap & Hopen).
  run_manager. simpl. rewrite Hpath. simpl.
  rewrite bool_decide_eq_true_2 by done. rewrite Hcap. simpl.
  rewrite Hopen. done.
Qed.

(** The fields of the manager stay consistent: after any method a
    capture is held exactly when a source is named active. *)
Theorem manager_consistent m :
  consistent m →
  (∀ source_name, consistent (select_source CAMERA_SOURCES source_name m).2)
  ∧ consistent (get_frame CAMERA_SOURCES m).2
  ∧ consistent (release_current_source m).2.
Proof.
  unfold consistent. intros Hm.
  assert (∀ source_name m', (current_cap (self m') = None
                             ↔ active_source (self m') = None) →
            let call := select_source CAMERA_SOURCES source_name m' in
            current_cap (self call.2) = None
            ↔ active_source (self call.2) = None) as Hsel.
  { clear m Hm. intros source_name m Hm. run_manager.
    destruct source_name as [name|]; simpl; [|done].
    destruct (CAMERA_SOURCES !! name) as [path|] eqn:Hpath; simpl; [|done].
    repeat (case_match; simplify_eq/=);
      first [done | split; congruence
            | match goal with Hc : current_cap _ = _ |- _ => by rewrite Hc end]. }
  split_and!.
  - intros source_name. by apply Hsel.
  - assert (self (get_frame CAMERA_SOURCES m).2 = self m
            ∨ ∃ source_name m',
                self m' = self m
                ∧ (get_frame CAMERA_SOURCES m).2
                  = (select_source CAMERA_SOURCES source_name m').2)
      as [-> | (source_name & m' & Hself & ->)]; [|done |].
    + unfold get_frame, bind, get_self, ask, log, perform, ret. simpl.
      destruct (current_cap (self m)) as [cap|]; simpl; [|by left].
      destruct (isOpened cap (world m)); simpl; [|by left].
      destruct (read cap (world m)) as [[frame|] w]; simpl.
      * destruct (shape frame) as [height width].
        destruct (800 <? width)%Z; [|by left].
        destruct (resize frame 800 (scaled_height height width)); by left.
      * right.
        exists (active_source (self m)),
          {| self := self m; world := w; trace := trace m ++ [Do_read] |}.
        split; [done |]. by destruct (select_source _ _ _).
    + apply Hsel. by rewrite Hself.
  - run_manager. destruct (current_cap (self m)) eqn:Hcap; simpl; [done |].
    by rewrite Hcap.
Qed.

(** Changing source: the capture held is released before the new one
    is opened, so two are never open at once.  When a capture is held
    and another configured source is asked for, the world first sees the
    release, then the opening, then (for an address starting with http)
    the wait of one second. *)
Theorem select_source_switch name m cap path :
  CAMERA_SOURCES !! name = Some path →
  current_cap (self m) = Some cap →
  active_source (self m) ≠ Some name →
  let call := select_source CAMERA_SOURCES (Some name) m in
  let opened := VideoCapture path (release cap (world m)) in
  trace call.2
  = trace m ++ [Call_select_source (Some name); Do_release;
                Do_VideoCapture path]
            ++ (if is_http path then [Do_sleep 1] else [])
  ∧ world call.2 = (if is_http path then sleep 1 opened.2 else opened.2)
  ∧ self call.2
    = (if isOpened opened.1 (world call.2)
       then {| active_source := Some name; current_cap := Some opened.1 |}
       else closed)
  ∧ call.1 = isOpened opened.1 (world call.2).
Proof.
  intros Hpath Hcap Hne. run_manager. simpl. rewrite Hpath. simpl.
  rewrite bool_decide_eq_false_2 by done. simpl. rewrite Hcap. simpl.
  destruct (VideoCapture path (release cap (world m))) as [cap' w]. simpl.
  destruct (is_http path); simpl.
  - destruct (isOpened cap' (sleep 1 w)) eqn:Ho; simpl;
      rewrite <- ?app_assoc, ?Ho; by split_and!.
  - destruct (isOpened cap' w) eqn:Ho; simpl;
      rewrite <- ?app_assoc, ?Ho; by split_and!.
Qed.

(** With no capture held, or with one that reports closed, [get_frame]
    answers [(False, None)] and does nothing at all: no read, no
    reselect. *)
Theorem get_frame_nothing_open m :
  (∀ cap, current_cap (self m) = Some cap → isOpened cap (world m) = false) →
  get_frame CAMERA_SOURCES m = (Returns (false, None), m).
Proof.
  intros Hclosed. unfold get_frame, bind, get_self, ask, ret. simpl.
  destruct (current_cap (self m)) as [cap|]; [|done].
  by rewrite (Hclosed cap eq_refl).
Qed.

(** A frame that [get_frame] hands out is never wider than 800: a frame
    no wider than that comes out as read, a wider one as [cv2.resize]
    returns it for the width 800, given that what [cv2.resize] returns
    has the size it was asked for.  The method raises only where
    [cv2.resize] does, on a frame wider than 800.  Either way the read
    has been made and the fields of the manager are as they were. *)
Theorem get_frame_width m cap frame w' :
  (∀ f new_width new_height out,
     resize f new_width new_height = Some out →
     shape out = (new_height, new_width)) →
  current_cap (self m) = Some cap →
  isOpened cap (world m) = true →
  read cap (world m) = (Some frame, w') →
  let call := get_frame CAMERA_SOURCES m in
  let small :=
    resize frame 800 (scaled_height (shape frame).1 (shape frame).2) in
  call.2 = {| self := self m; world := w'; trace := trace m ++ [Do_read] |}
  ∧ match call.1 with
    | Returns (ok, out) =>
        ok = true
        ∧ ∃ o, out = Some o
               ∧ ((shape o).2 ≤ 800)%Z
               ∧ (if (800 <? (shape frame).2)%Z
                  then small = Some o
                       ∧ shape o
                         = (scaled_height (shape frame).1 (shape frame).2,
                            800%Z)
                  else o = frame)
    | Raises => (800 < (shape frame).2)%Z ∧ small = None
    end.
Proof.
  intros Hresize Hcap Hopen Hread call small. subst call small.
  unfold get_frame, bind, get_self, ask, log, perform, ret. simpl.
  rewrite Hcap, Hopen. simpl. rewrite Hread. simpl.
  destruct (shape frame) as [height width] eqn:Hshape. simpl.
  destruct (Z.ltb_spec 800 width) as [Hwide|Hfits].
  - destruct (resize frame 800 (scaled_height height width)) as [o|] eqn:Ho;
      simpl; [|done].
    split_and!; [done.. |]. exists o.
    rewrite (Hresize _ _ _ _ Ho). simpl. split_and!; [done | lia | done..].
  - simpl. split_and!; [done.. |]. exists frame.
    rewrite Hshape. by split_and!.
Qed.

(** The automatic reconnection does nothing as long as the capture still
    reports open: after a failed read on a configured source,
    [select_source] finds the source already active and leaves the
    manager as it is, without releasing or reopening. *)
Theorem get_frame_reconnect_idle m cap name w' :
  current_cap (self m) = Some cap →
  active_source (self m) = Some name →
  is_Some (CAMERA_SOURCES !! name) →
  isOpened cap (world m) = true →
  read cap (world m) = (None, w') →
  isOpened cap w' = true →
  get_frame CAMERA_SOURCES m
  = (Returns (false, None),
     {| self := self m; world := w';
        trace := trace m ++ [Do_read; Call_select_source (Some name)] |}).
Proof.
  intros Hcap Hact [path Hpath] Hopen Hread Hopen'. run_manager. simpl.
  rewrite Hcap, Hopen. simpl. rewrite Hread. simpl. rewrite Hact. simpl.
  rewrite Hpath. simpl. rewrite bool_decide_eq_true_2 by done.
  rewrite Hcap. simpl. rewrite Hopen'. simpl. by rewrite <- app_assoc.
Qed.

(** Releasing twice is releasing once: the second call finds nothing to
    release and does not reach the world. *)
Theorem release_current_source_twice m :
  release_current_source (release_current_source m).2
  = (tt, (release_current_source m).2)
  ∧ self (release_current_source m).2
    = match current_cap (self m) with
      | Some _ => closed
      | None => self m
      end.
Proof. run_manager. by destruct (current_cap (self m)) eqn:Hcap; simpl; rewrite ?Hcap. Qed.

End manager_more.

Lemma select_source_again_witness :
  let first := select_source (H := lossy_link) config.CAMERA_SOURCES
                 (Some "webcam") (init (H := lossy_link) 0%nat) in
  let again := select_source (H := lossy_link) config.CAMERA_SOURCES
                 (Some "webcam") first.2 in
  again.1 = true
  ∧ self again.2 = self first.2
  ∧ world again.2 = world first.2
  ∧ trace again.2 = trace first.2 ++ [Call_select_source (Some "webcam")].
Proof.
  refine (select_source_again (H := lossy_link) config.CAMERA_SOURCES
            (Some "webcam") (init (H := lossy_link) 0%nat) _).
  vm_compute. reflexivity.
Defined.

Lemma manager_consistent_witness :
  consistent (H := lossy_link)
    (get_frame (H := lossy_link) config.CAMERA_SOURCES
       (init (H := lossy_link) 0%nat)).2.
Proof.
  refine (proj1 (proj2 (manager_consistent (H := lossy_link)
                          config.CAMERA_SOURCES
                          (init (H := lossy_link) 0%nat) _))).
  unfold consistent. simpl. done.
Defined.

Lemma select_source_switch_witness :
  let call := select_source (H := lossy_link) config.CAMERA_SOURCES
                (Some "ip_cam_cellphone") webcam_open in
  let opened :=
    VideoCapture (Cv2 := lossy_link) (Url "http://10.244.244.82:8080/video")
      (release (Cv2 := lossy_link) (Index 0) (world webcam_open)) in
  trace call.2
  = trace webcam_open
    ++ [Call_select_source (Some "ip_cam_cellphone"); Do_release;
        Do_VideoCapture (Url "http://10.244.244.82:8080/video")]
    ++ (if is_http (Url "http://10.244.244.82:8080/video")
        then [Do_sleep 1] else [])
  ∧ world call.2
    = (if is_http (Url "http://10.244.244.82:8080/video")
       then sleep (Cv2 := lossy_link) 1 opened.2 else opened.2)
  ∧ self call.2
    = (if isOpened (Cv2 := lossy_link) opened.1 (world call.2)
       then {| active_source := Some "ip_cam_cellphone";
               current_cap := Some opened.1 |}
       else closed)
  ∧ call.1 = isOpened (Cv2 := lossy_link) opened.1 (world call.2).
Proof.
  refine (select_source_switch (H := lossy_link) config.CAMERA_SOURCES
            "ip_cam_cellphone" webcam_open (Index 0)
            (Url "http://10.244.244.82:8080/video") _ _ _).
  - vm_compute. reflexivity.
  - vm_compute. reflexivity.
  - vm_compute. discriminate.
Defined.

Lemma get_frame_nothing_open_witness :
  get_frame (H := lossy_link) config.CAMERA_SOURCES (init (H := lossy_link) 3%nat)
  = (Returns (false, None), init (H := lossy_link) 3%nat).
Proof.
  refine (get_frame_nothing_open (H := lossy_link) config.CAMERA_SOURCES
            (init (H := lossy_link) 3%nat) _).
  intros cap Hcap. discriminate Hcap.
Defined.

Lemma get_frame_width_witness :
  (get_frame (H := hd_camera) config.CAMERA_SOURCES hd_webcam_open).1
  = Returns (true, Some (450, 800)%Z)
  ∧ let call :=
      get_frame (H := hd_camera) config.CAMERA_SOURCES hd_webcam_open in
    let small :=
      resize (Cv2 := hd_camera) (1080, 1920)%Z 800
        (scaled_height (Cv2 := hd_camera)
           (shape (Cv2 := hd_camera) (1080, 1920)%Z).1
           (shape (Cv2 := hd_camera) (1080, 1920)%Z).2) in
    call.2 = {| self := self hd_webcam_open; world := tt;
                trace := trace hd_webcam_open ++ [Do_read] |}
    ∧ match call.1 with
      | Returns (ok, out) =>
          ok = true
          ∧ ∃ o, out = Some o
                 ∧ ((shape (Cv2 := hd_camera) o).2 ≤ 800)%Z
                 ∧ (if (800 <? (shape (Cv2 := hd_camera) (1080, 1920)%Z).2)%Z
                    then small = Some o
                         ∧ shape (Cv2 := hd_camera) o
                           = (scaled_height (Cv2 := hd_camera)
                                (shape (Cv2 := hd_camera) (1080, 1920)%Z).1
                                (shape (Cv2 := hd_camera) (1080, 1920)%Z).2,
                              800%Z)
                    else o = (1080, 1920)%Z)
      | Raises =>
          (800 < (shape (Cv2 := hd_camera) (1080, 1920)%Z).2)%Z ∧ small = None
      end.
Proof.
  split; [vm_compute; reflexivity |].
  refine (get_frame_width (H := hd_camera) config.CAMERA_SOURCES
            hd_webcam_open (Index 0) (1080, 1920)%Z tt _ _ _ _).
  - intros f new_width new_height out. cbn [resize shape hd_camera].
    case_match; [|discriminate]. by intros [= <-].
  - reflexivity.
  - reflexivity.
  - reflexivity.
Defined.

Lemma get_frame_reconnect_idle_witness :
  get_frame (H := lossy_link) config.CAMERA_SOURCES webcam_open
  = (Returns (false, None),
     {| self := self webcam_open; world := 0%nat;
        trace := trace webcam_open
                 ++ [Do_read; Call_select_source (Some "webcam")] |}).
Proof.
  refine (get_frame_reconnect_idle (H := lossy_link) config.CAMERA_SOURCES
            webcam_open (Index 0) "webcam" 0%nat _ _ _ _ _ _).
  - reflexivity.
  - reflexivity.
  - vm_compute. by eexists.
  - reflexivity.
  - reflexivity.
  - reflexivity.
Defined.

(** ** The setting of the window *)

Section settings_more.
Import app.
Local Open Scope Z_scope.



End settings_more.

(** ** The plate check of the registry query *)

Section sunarp_more.
Import sunarp_scraper.
Local Open Scope string_scope.
Implicit Types (s rest pre plate : string) (c : ascii) (q : ascii → bool)
  (a : atom) (r : list atom).

Lemma str_app_empty s : s +:+ "" = s.
Proof. induction s as [|c s IH]; [done | by rewrite app_cons, IH]. Qed.

Lemma str_app_assoc s1 s2 s3 : (s1 +:+ s2) +:+ s3 = s1 +:+ (s2 +:+ s3).
Proof.
  induction s1 as [|c s1 IH]; [done |]. by rewrite !app_cons, IH.
Qed.

Lemma eat_sound q n s rest :
  eat q n s = Some rest →
  ∃ pre, s = pre +:+ rest ∧ String.length pre = n ∧ all q pre = true.
Proof.
  revert s. induction n as [|n IH]; intros s; simpl.
  - intros [= ->]. by exists "".
  - destruct s as [|c s]; [done |]. destruct (q c) eqn:Hc; [|done].
    intros (pre & -> & <- & Hpre)%IH. exists (String c pre).
    simpl. by rewrite Hc.
Qed.

Lemma eat_complete q pre rest :
  all q pre = true → eat q (String.length pre) (pre +:+ rest) = Some rest.
Proof.
  induction pre as [|c pre IH]; [done |]. rewrite app_cons. simpl.
  intros [-> Hpre]%andb_prop. by apply IH.
Qed.

Lemma atom_residuals_sound a s rest :
  rest ∈ atom_residuals a s →
  ∃ pre, s = pre +:+ rest
         ∧ (least a ≤ String.length pre ≤ most a)%nat
         ∧ all (cls a) pre = true.
Proof.
  unfold atom_residuals.
  intros (k & Hk & (pre & -> & <- & Hpre)%eat_sound)%list_elem_of_omap.
  apply elem_of_seq in Hk. exists pre. split_and!; try done; lia.
Qed.

Lemma atom_residuals_complete a pre rest :
  (least a ≤ String.length pre ≤ most a)%nat → all (cls a) pre = true →
  rest ∈ atom_residuals a (pre +:+ rest).
Proof.
  intros Hlen Hpre. unfold atom_residuals. apply list_elem_of_omap.
  exists (String.length pre). split; [apply elem_of_seq; lia |].
  by apply eat_complete.
Qed.

(** Whatever a pattern matches at the front of a text is made of the
    characters of its classes and is as long as its counts allow. *)
Lemma residuals_sound q r s rest :
  Forall (λ a, ∀ c, cls a c = true → q c = true) r →
  rest ∈ residuals r s →
  ∃ pre, s = pre +:+ rest
         ∧ (sum_list_with least r ≤ String.length pre
            ≤ sum_list_with most r)%nat
         ∧ all q pre = true.
Proof.
  intros Hq. revert s. induction Hq as [|a r Ha Hr IH]; intros s; simpl.
  - intros ->%list_elem_of_singleton. exists "". by split_and!.
  - intros (mid & Hrest & Hmid)%list_elem_of_bind.
    apply atom_residuals_sound in Hmid as (pre1 & -> & Hlen1 & Hpre1).
    apply IH in Hrest as (pre2 & -> & Hlen2 & Hpre2).
    exists (pre1 +:+ pre2). rewrite str_app_assoc, str_length_app, all_app.
    split_and!; [done | lia | lia |].
    rewrite Hpre2, andb_true_r. revert Hpre1. by apply all_weaken.
Qed.

Lemma general_pattern_complete pre rest :
  (6 ≤ String.length pre ≤ 8)%nat → all plate_char pre = true →
  at_end rest = true →
  re_match general_pattern (pre +:+ rest) = true.
Proof.
  intros Hlen Hpre Hend. unfold re_match. apply existsb_exists.
  exists rest. split; [|done]. apply list_elem_of_In. simpl.
  apply list_elem_of_bind. exists rest.
  split; [apply list_elem_of_here |].
  by apply (atom_residuals_complete (times plate_char 6 8)).
Qed.

Lemma re_match_sound q r plate :
  Forall (λ a, ∀ c, cls a c = true → q c = true) r →
  re_match r plate = true →
  ∃ pre rest, plate = pre +:+ rest ∧ at_end rest = true
              ∧ (sum_list_with least r ≤ String.length pre
                 ≤ sum_list_with most r)%nat
              ∧ all q pre = true.
Proof.
  intros Hq (rest & Hin%list_elem_of_In & Hend)%existsb_exists.
  destruct (residuals_sound q r plate rest Hq Hin) as (pre & -> & Hlen & Hpre).
  by exists pre, rest.
Qed.

Lemma narrower_classes c :
  (alnum c = true → plate_char c = true)
  ∧ (is_AZ c = true → plate_char c = true)
  ∧ (is_09 c = true → plate_char c = true)
  ∧ (is_hyphen c = true → plate_char c = true).
Proof.
  unfold plate_char, alnum. split_and!; intros ->; by rewrite ?orb_true_r.
Qed.

Lemma patterns_in_general pattern plate :
  pattern ∈ patterns → re_match pattern plate = true →
  re_match general_pattern plate = true.
Proof.
  intros Hp Hm.
  assert (Forall (λ a, ∀ c, cls a c = true → plate_char c = true) pattern
          ∧ (6 ≤ sum_list_with least pattern)%nat
          ∧ (sum_list_with most pattern ≤ 8)%nat) as (Hcls & Hlo & Hhi).
  { unfold patterns in Hp. rewrite !elem_of_cons, elem_of_nil in Hp.
    destruct Hp as [->|[->|[->|[->|[]]]]]; (split_and!; [|simpl; lia..]).
    all: repeat constructor; simpl; intros c; apply narrower_classes. }
  destruct (re_match_sound _ _ _ Hcls Hm) as (pre & rest & -> & Hend & Hlen & Hpre).
  apply general_pattern_complete; [lia | done..].
Qed.

Lemma validate_plate_format_spec plate :
  _validate_plate_format plate = re_match general_pattern plate
  ∧ (_validate_plate_format plate = true
     ↔ ∃ core rest, plate = core +:+ rest ∧ at_end rest = true
                    ∧ (6 ≤ String.length core ≤ 8)%nat
                    ∧ all plate_char core = true).
Proof.
  assert (_validate_plate_format plate = re_match general_pattern plate) as Heq.
  { unfold _validate_plate_format.
    destruct (existsb _ patterns) eqn:Hex; [|done]. simpl. symmetry.
    apply existsb_exists in Hex as (pattern & Hin%list_elem_of_In & Hm).
    by apply (patterns_in_general pattern). }
  split; [done |]. rewrite Heq. split.
  - intros Hm.
    destruct (re_match_sound plate_char general_pattern plate) as
      (pre & rest & -> & Hend & Hlen & Hpre); [by repeat constructor | done |].
    exists pre, rest. simpl in Hlen. split_and!; try done; lia.
  - intros (core & rest & -> & Hend & Hlen & Hcore).
    by apply general_pattern_complete.
Qed.

(** The four plate patterns of [_validate_plate_format] decide nothing:
    whatever one of them accepts, the general pattern tried after them
    accepts too.  The check passes exactly the texts of six to eight
    characters among capital letters, digits and hyphens, a final newline
    apart. *)
Theorem validate_plate_format_general plate :
  _validate_plate_format plate = re_match general_pattern plate
  ∧ (_validate_plate_format plate = true
     ↔ ∃ core rest, plate = core +:+ rest ∧ at_end rest = true
                    ∧ (6 ≤ String.length core ≤ 8)%nat
                    ∧ all plate_char core = true).
Proof. apply validate_plate_format_spec. Qed.

Lemma replace_no_space s :
  all allowed s = true → replace " " "" s = s.
Proof.
  unfold replace. simpl is_empty. cbv iota.
  induction s as [|c s IH]; [done |]. simpl all.
  intros [Hc Hs]%andb_prop.
  change (replace_from " " "" 0 (String c s))
    with (if String.prefix " " (String c s)
          then "" +:+ replace_from " " "" (String.length " " - 1) s
          else String c (replace_from " " "" 0 s)).
  change (String.prefix " " (String c s))
    with (if ascii_dec " " c then String.prefix "" s else false).
  destruct (ascii_dec " " c) as [<-|]; [by vm_compute in Hc |].
  by rewrite (IH Hs).
Qed.

Lemma at_end_allowed core rest :
  all allowed (core +:+ rest) = true → at_end rest = true → rest = "".
Proof.
  rewrite all_app. intros [_ Hrest]%andb_prop.
  destruct rest as [|c [|c' rest]]; simpl; try done.
  intros Hn%newline_is_space. simpl in Hrest.
  apply andb_prop in Hrest as [Hc%allowed_not_space _]. congruence.
Qed.

(** A plate that the normaliser returns reaches the registry query as it
    is when it has six characters or more, and the grammatical ones all
    have; the five-character plates of the fallback are turned away as
    badly formatted. *)
Theorem consult_plate_of_clean_text {R} (query : string → R) text :
  clean_text text ≠ "" →
  consult_plate query (clean_text text)
  = (if (6 <=? String.length (clean_text text))%nat
     then Consulted (query (clean_text text))
     else Invalid_format (clean_text text))
  ∧ (matches_grammar (clean_text text) = true →
     consult_plate query (clean_text text)
     = Consulted (query (clean_text text))).
Proof.
  intros Hne.
  destruct (clean_text_form text) as [|([Hlo Hhi] & Ha & _)]; [done |].
  set (plate := clean_text text) in *.
  assert (consult_plate query plate
          = if (6 <=? String.length plate)%nat
            then Consulted (query plate) else Invalid_format plate) as Hc.
  { unfold consult_plate.
    rewrite (strip_allowed _ Ha), (upper_allowed _ Ha), (replace_no_space _ Ha).
    destruct (Nat.leb_spec 6 (String.length plate)) as [Hlen|Hlen].
    - assert (_validate_plate_format plate = true) as ->; [|done].
      apply validate_plate_format_spec. exists plate, "".
      rewrite str_app_empty. split_and!; try done; lia.
    - assert (_validate_plate_format plate = false) as ->; [|done].
      apply not_true_is_false.
      intros (core & rest & Hp & Hend & Hlen' & _)%validate_plate_format_spec.
      rewrite Hp in Ha. pose proof (at_end_allowed _ _ Ha Hend) as ->.
      rewrite str_app_empty in Hp. subst core. lia. }
  split; [done |]. intros Hg. rewrite Hc.
  apply existsb_exists in Hg as (p & Hp & Hm).
  apply has_shape_length in Hm.
  rewrite (patterns_length p) in Hm by by apply list_elem_of_In.
  pose proof (length_keep_le (λ c, negb (is_hyphen c)) plate) as Hle.
  by destruct (Nat.leb_spec 6 (String.length plate)); [|lia].
Qed.

Lemma consult_plate_of_clean_text_witness :
  consult_plate (λ plate, plate) (clean_text "abc 123")
  = (if (6 <=? String.length (clean_text "abc 123"))%nat
     then Consulted (clean_text "abc 123")
     else Invalid_format (clean_text "abc 123"))
  ∧ (matches_grammar (clean_text "abc 123") = true →
     consult_plate (λ plate, plate) (clean_text "abc 123")
     = Consulted (clean_text "abc 123")).
Proof.
  refine (consult_plate_of_clean_text (λ plate, plate) "abc 123" _).
  vm_compute. discriminate.
Defined.

End sunarp_more.

(** ** The ladder of recognition attempts *)

Section recognize_more.
Import ocr_engine.
Local Open Scope string_scope.
Context {confidence : Type}
  (above_06 above_04 above_03 : confidence → bool).
Implicit Types (results : list (Reading (confidence := confidence)))
  (best text : string) (self : OCRProcessor)
  (scene : Scene (confidence := confidence)).

(** Empty, or a result of the normaliser that is not empty. *)
Abbreviation normalised best :=
  (best = "" ∨ ∃ text, best = clean_text text ∧ clean_text text ≠ "").

Lemma nonempty_normalised text :
  is_empty (clean_text text) = false → normalised (clean_text text).
Proof. intros Hne. right. exists text. split; [done |]. by intros Heq; rewrite Heq in Hne. Qed.

Ltac by_nonempty :=
  first
    [ done
    | apply nonempty_normalised;
      match goal with
      | Hc : (negb (is_empty ?x) && _)%bool = true |- is_empty ?x = false =>
          by apply andb_prop in Hc as [?%negb_true_iff _]
      end ].

Lemma method1_normalised results best :
  normalised best → normalised (method1 above_06 results best).
Proof.
  unfold method1. revert best.
  induction results as [|r results IH]; intros best Hbest; simpl; [done |].
  apply IH. unfold valid_plate. repeat case_match; by_nonempty.
Qed.

Lemma method3_normalised results best :
  normalised best → normalised (method3 above_04 results best).
Proof.
  intros Hbest. induction results as [|r results IH]; simpl; [done |].
  repeat case_match; by_nonempty.
Qed.

Lemma method4_normalised results best :
  normalised best → normalised (method4 above_03 results best).
Proof.
  intros Hbest. unfold method4. repeat case_match; by_nonempty.
Qed.

Lemma recognize_text_normalised self scene :
  normalised (recognize_text above_06 above_04 above_03 self scene).
Proof.
  unfold recognize_text, attempt, valid_plate.
  destruct (image_missing scene); [by left |].
  destruct (preprocess_for_ocr scene); [|by left].
  repeat case_match; simpl in *;
    repeat first [ apply method4_normalised | apply method3_normalised
                 | apply method1_normalised ];
    first [by left | by_nonempty].
Qed.

(** Whatever the engines return, raise or miss, a text that
    [recognize_text] gives back is empty or already normalised: five to
    eight characters among capital letters, digits and hyphens, which the
    normaliser would return unchanged. *)
Theorem recognize_text_result self scene :
  let plate := recognize_text above_06 above_04 above_03 self scene in
  plate = ""
  ∨ ((5 ≤ String.length plate ≤ 8)%nat
     ∧ all allowed plate = true
     ∧ clean_text plate = plate).
Proof.
  intros plate.
  destruct (recognize_text_normalised self scene) as [|(text & Hp & Hne)];
    [by left |].
  right. subst plate. rewrite Hp.
  destruct (clean_text_form text) as [|(Hlen & Ha & _)]; [done |].
  split_and!; [lia | lia | done |]. apply clean_text_cleaned_twice.
Qed.

Lemma method1_grows results best :
  (String.length best
   ≤ String.length (method1 above_06 results best))%nat.
Proof.
  unfold method1. revert best.
  induction results as [|r results IH]; intros best; simpl; [done |].
  etransitivity; [|apply IH].
  repeat case_match; try done.
  match goal with Hlt : (_ <? _)%nat = true |- _ => apply Nat.ltb_lt in Hlt end.
  lia.
Qed.

Lemma method1_longest results best r :
  r ∈ results → above_06 (read_confidence r) = true →
  is_valid_peruvian_plate (clean_text (read_text r)) = true →
  (String.length (clean_text (read_text r))
   ≤ String.length (method1 above_06 results best))%nat.
Proof.
  intros Hin Hconf Hvalid. revert best.
  induction Hin as [r results|r r' results Hin IH]; intros best.
  - unfold method1. simpl. fold (method1 above_06 results).
    etransitivity; [|apply method1_grows].
    rewrite Hconf. unfold valid_plate. rewrite Hvalid.
    assert (is_empty (clean_text (read_text r)) = false) as ->
      by (by destruct (clean_text (read_text r))).
    simpl. destruct (Nat.ltb_spec (String.length best)
                       (String.length (clean_text (read_text r)))); lia.
  - unfold method1. simpl. by apply IH.
Qed.

Lemma method1_valid results best :
  (best = "" ∨ is_valid_peruvian_plate best = true) →
  method1 above_06 results best = ""
  ∨ is_valid_peruvian_plate (method1 above_06 results best) = true.
Proof.
  unfold method1. revert best.
  induction results as [|r results IH]; intros best Hbest; simpl; [done |].
  apply IH. unfold valid_plate. repeat case_match; try done.
  right. match goal with
         | Hc : (_ && _)%bool = true |- _ => by apply andb_prop in Hc as [_ ?]
         end.
Qed.

(** The first rung decides when it can: if EasyOCR, on the preprocessed
    image, returns a reading above 0.6 whose normalised text is valid,
    the result is a valid plate, at least as long as that reading, and
    the three other attempts are not made. *)
Theorem recognize_text_first_rung self scene done_ results r :
  image_missing scene = false →
  preprocess_for_ocr scene = Returned done_ →
  reader self = true →
  readtext_processed scene = Returned results →
  r ∈ results → above_06 (read_confidence r) = true →
  is_valid_peruvian_plate (clean_text (read_text r)) = true →
  let plate := recognize_text above_06 above_04 above_03 self scene in
  plate = method1 above_06 results ""
  ∧ is_valid_peruvian_plate plate = true
  ∧ (String.length (clean_text (read_text r)) ≤ String.length plate)%nat.
Proof.
  intros Himg Hpre Hreader Hres Hin Hconf Hvalid plate.
  pose proof (method1_longest results "" r Hin Hconf Hvalid) as Hlong.
  assert (is_empty (method1 above_06 results "") = false) as Hne.
  { destruct (method1 above_06 results ""); [|done].
    destruct (clean_text (read_text r)); [done | simpl in Hlong; lia]. }
  assert (plate = method1 above_06 results "") as ->.
  { subst plate. unfold recognize_text.
    rewrite Himg, Hpre, Hreader, Hres. unfold attempt. cbv beta iota zeta.
    rewrite Hne. cbn [andb]. rewrite Hne. cbn [andb]. by rewrite Hne. }
  split_and!; [done | | done].
  destruct (method1_valid results "") as [Hnil|Hv]; [by left | | done].
  by rewrite Hnil in Hne.
Qed.

(** A plate that the ladder returns is never taken for blank by
    [add_plate_reading]: with the store up, and neither Tier 1 nor the
    table holding the plate for that camera, it is stored as the last
    row, with its text as it came. *)
Theorem recognised_plate_is_stored self scene s t src ip ib W st :
  let plate := recognize_text above_06 above_04 above_03 self scene in
  plate ≠ "" →
  plate_cache st !! cache_key plate src = None →
  (∀ r, r ∈ plates st → plate_text r = plate → camera_source r ≠ src) →
  ∃ st', add_plate_reading s t true plate src ip ib W st = (true, st')
         ∧ plates st'
           = (plates st ++ [{| plate_text := plate; timestamp := strftime t;
                               camera_source := src; image_path := ip;
                               image_base64 := ib |}])%list.
Proof.
  intros plate Hne Hcache Hrows.
  destruct (recognize_text_normalised self scene) as [|(text & Hp & _)];
    [done |].
  fold plate in Hp.
  destruct (clean_text_form text) as [Hnil|(Hlen & Ha & _)];
    [by rewrite <- Hp in Hnil |].
  rewrite <- Hp in *.
  assert ((is_empty plate || is_empty (strip plate))%bool = false) as Hb.
  { rewrite (strip_allowed _ Ha). by destruct plate. }
  assert ((add_plate_reading s t true plate src ip ib W st).1 = true)
    as Hok.
  { apply add_plate_reading_fresh; [done | |].
    - intros seen. by rewrite lookup_cleanup_cache, Hcache.
    - intros r Hr Hc Hs. by destruct (Hrows r Hr Hc). }
  destruct (add_plate_reading s t true plate src ip ib W st)
    as [ok st'] eqn:Hcall.
  simpl in Hok. subst ok. exists st'. split; [done |].
  by apply add_plate_reading_accept in Hcall as (_ & _ & _ & ->).
Qed.

End recognize_more.

Lemma recognize_text_first_rung_witness :
  let plate := ocr_engine.recognize_text (λ c, 60 <? c)%nat (λ c, 40 <? c)%nat
                 (λ c, 30 <? c)%nat
                 {| ocr_engine.reader := true;
                    ocr_engine.tesseract_available := false |}
                 ocr_engine.parking_scene in
  plate = ocr_engine.method1 (λ c, 60 <? c)%nat
            [{| ocr_engine.read_text := "PERU";
                ocr_engine.read_confidence := 95%nat |};
             {| ocr_engine.read_text := "abc 123";
                ocr_engine.read_confidence := 80%nat |}] ""
  ∧ is_valid_peruvian_plate plate = true
  ∧ (String.length (clean_text "abc 123") ≤ String.length plate)%nat.
Proof.
  refine (recognize_text_first_rung (λ c, 60 <? c)%nat (λ c, 40 <? c)%nat
            (λ c, 30 <? c)%nat
            {| ocr_engine.reader := true;
               ocr_engine.tesseract_available := false |}
            ocr_engine.parking_scene tt _
            {| ocr_engine.read_text := "abc 123";
               ocr_engine.read_confidence := 80%nat |} _ _ _ _ _ _ _);
    try reflexivity.
  apply list_elem_of_further, list_elem_of_here.
Defined.

Lemma recognised_plate_is_stored_witness :
  ∃ st',
    add_plate_reading 0 0 true
      (ocr_engine.recognize_text (λ c, 60 <? c)%nat (λ c, 40 <? c)%nat
         (λ c, 30 <? c)%nat
         {| ocr_engine.reader := true;
            ocr_engine.tesseract_available := false |}
         ocr_engine.parking_scene)
      "webcam" None None 30 seen_once = (true, st')
    ∧ plates st'
      = (plates seen_once
         ++ [{| plate_text :=
                  ocr_engine.recognize_text (λ c, 60 <? c)%nat
                    (λ c, 40 <? c)%nat (λ c, 30 <? c)%nat
                    {| ocr_engine.reader := true;
                       ocr_engine.tesseract_available := false |}
                    ocr_engine.parking_scene;
                timestamp := strftime 0; camera_source := "webcam";
                image_path := None; image_base64 := None |}])%list.
Proof.
  refine (recognised_plate_is_stored (λ c, 60 <? c)%nat (λ c, 40 <? c)%nat
            (λ c, 30 <? c)%nat
            {| ocr_engine.reader := true;
               ocr_engine.tesseract_available := false |}
            ocr_engine.parking_scene 0%Z 0%Z "webcam" None None 30%Z
            seen_once _ _ _).
  - vm_compute. discriminate.
  - vm_compute. reflexivity.
  - intros r Hr Hc.
    apply list_elem_of_singleton in Hr. subst r.
    vm_compute in Hc. discriminate Hc.
Defined.

(** ** Keys of Tier 1 and dead entries of the substitution table *)

Section keys_and_table.
Local Open Scope string_scope.
Implicit Types (s old plate camera : string) (c : ascii).

(** For plate texts as the normaliser writes them (capital letters,
    digits, hyphens) the key of Tier 1 names one plate and one camera:
    two readings share a key only when they share both. *)
Theorem cache_key_injective plate1 camera1 plate2 camera2 :
  all allowed plate1 = true → all allowed plate2 = true →
  cache_key plate1 camera1 = cache_key plate2 camera2 →
  plate1 = plate2 ∧ camera1 = camera2.
Proof.
  unfold cache_key. revert plate2.
  induction plate1 as [|c1 plate1 IH]; intros [|c2 plate2]; simpl all;
    rewrite ?app_cons, ?app_nil.
  - intros _ _. change ("_" +:+ camera1) with (String "_" camera1).
    change ("_" +:+ camera2) with (String "_" camera2). by intros [= ->].
  - intros _ [Hc _]%andb_prop.
    change ("_" +:+ camera1) with (String "_" camera1).
    intros [= <- _]. by vm_compute in Hc.
  - intros [Hc _]%andb_prop _.
    change ("_" +:+ camera2) with (String "_" camera2).
    intros [= -> _]. by vm_compute in Hc.
  - intros [_ H1]%andb_prop [_ H2]%andb_prop [= -> Heq].
    by destruct (IH plate2 H1 H2 Heq) as [-> ->].
Qed.

Lemma cache_key_injective_witness :
  "ABC-123" = "ABC-123" ∧ "webcam" = "webcam".
Proof.
  refine (cache_key_injective "ABC-123" "webcam" "ABC-123" "webcam" _ _ _);
    reflexivity.
Defined.

Lemma prefix_split old s :
  String.prefix old s = true → s = old +:+ drop (String.length old) s.
Proof.
  revert s. induction old as [|c old IH]; intros s; [by destruct s |].
  destruct s as [|c' s]; [done |].
  change (String.prefix (String c old) (String c' s))
    with (if ascii_dec c c' then String.prefix old s else false).
  destruct (ascii_dec c c') as [<-|]; [|done].
  intros Hp. rewrite app_cons. simpl. by rewrite <- (IH s Hp).
Qed.

(** Replacing a text by itself changes nothing. *)
Lemma replace_from_same old k s :
  old ≠ "" → replace_from old old k s = drop k s.
Proof.
  intros Hold.
  revert k. induction s as [|c s IH]; intros k; [by destruct k |].
  destruct k as [|k]; [|apply IH].
  change (replace_from old old 0 (String c s))
    with (if String.prefix old (String c s)
          then old +:+ replace_from old old (String.length old - 1) s
          else String c (replace_from old old 0 s)).
  destruct (String.prefix old (String c s)) eqn:Hp.
  - rewrite IH. destruct old as [|c' old]; [done |].
    pose proof (prefix_split _ _ Hp) as Hs. simpl in Hs.
    rewrite app_cons in Hs. injection Hs as -> Hs.
    simpl String.length. rewrite app_cons.
    replace (S (String.length old) - 1)%nat with (String.length old) by lia.
    by rewrite <- Hs.
  - rewrite IH. simpl. by destruct s.
Qed.

(** Four of the eight entries of the multi-character table rewrite a
    pair into itself (B8, 8B, S5, 5S): they can never turn a text that
    fails validation into one that passes, so the table does what its
    first four entries do. *)
Theorem identity_corrections_never_fire cleaned :
  is_valid_peruvian_plate cleaned = false →
  try_corrections cleaned corrections
  = try_corrections cleaned
      [("O0", "00"); ("0O", "00"); ("II", "11"); ("OO", "00")].
Proof.
  intros Hv. unfold corrections. cbn [try_corrections].
  assert (∀ old, old ≠ "" → replace old old cleaned = cleaned) as Hsame.
  { intros old Hold. unfold replace. destruct old; [done |]. simpl is_empty.
    cbv iota. by rewrite replace_from_same. }
  rewrite !Hsame, Hv by done.
  by repeat case_match.
Qed.

Lemma identity_corrections_never_fire_witness :
  try_corrections "AB8S5X" corrections
  = try_corrections "AB8S5X"
      [("O0", "00"); ("0O", "00"); ("II", "11"); ("OO", "00")].
Proof.
  refine (identity_corrections_never_fire "AB8S5X" _). reflexivity.
Defined.

End keys_and_table.
